(** * Query symbols of the metrics dashboard

    A verification of [static/app/components/metrics/querySymbol.tsx]:
    the function [getQuerySymbol], which names the queries of a widget
    a, b, ..., z, aa, ab, ... and the component [QuerySymbol] that
    renders such a name.

    Numbers.  The source computes on JavaScript numbers, which are
    doubles.  Every property below is about integer indices, and an
    integer-valued number is embedded as a [Z].  The remainder [%]
    takes the sign of the dividend and is exact on doubles ([Z.rem]);
    a remainder [-0] (a negative multiple of 26) reads the property
    ["0"] of the string, as [0] does.  The quotient and the difference
    are embedded twice:
    - [getQuerySymbol] computes [Math.floor (i / 26) - 1] as on the
      integers, with the floored quotient [Z.div];
    - [Binary64.getQuerySymbol] computes it as the engine does: the
      quotient is rounded to a double before it is floored, and so is
      the difference.
    The two agree on the safe integers that are not negative (below
    [2^53]), see [binary64_loop_safe]: there the rounded quotient is
    within 1/32 of the real one, whose fractional part is 0 or at
    least 1/26.  They agree on the negative indices as well, see
    [binary64_below_26].  They differ on larger doubles, at
    [26 * 2^50 + 24] for one, and what is said of large indices is
    said of [Binary64.getQuerySymbol].

    Strings.  A JavaScript string of ASCII characters is a [string];
    indexing one yields a one-character string or [undefined], and [+]
    with a string on the right converts its left operand to a string. *)

From Stdlib Require Import List.
From Stdlib Require Import ZArith Bool Ascii String Lia SpecFloat.
Import ListNotations.

Local Open Scope string_scope.
Local Open Scope Z_scope.

(** ** A fragment of JavaScript values *)

Module Js.

(** The values the loop body builds: a string, or [undefined] when a
    string is indexed out of range. *)
Inductive value : Type :=
| Str (s : string)
| Undefined.

(** [s[k]] for a string [s] and an integer [k]. *)
Definition index (s : string) (k : Z) : value :=
  if k <? 0 then Undefined
  else match String.get (Z.to_nat k) s with
       | Some c => Str (String c EmptyString)
       | None => Undefined
       end.

(** [ToString] on these values. *)
Definition to_string (v : value) : string :=
  match v with
  | Str s => s
  | Undefined => "undefined"
  end.

(** [v + s] where [s] is a string: string concatenation. *)
Definition add (v : value) (s : string) : string :=
  to_string v ++ s.

(** [s.length] *)
Definition length (s : string) : Z := Z.of_nat (String.length s).

(** [a % b] on integers. *)
Definition rem (a b : Z) : Z := Z.rem a b.

(** [Math.floor (a / b)] on integers, [b] positive, the quotient taken
    exactly.  The engine rounds the quotient to a double first: see
    [Binary64.floor_div], which is this one on the safe integers. *)
Definition floor_div (a b : Z) : Z := a / b.

(** How a call completes: it returns a value or it throws. *)
Inductive completion (A : Type) : Type :=
| Return (v : A)
| Throw (error : string).
Arguments Return {A} v.
Arguments Throw {A} error.

End Js.

(** ** Loops *)

Section DoWhile.

Variable state : Type.
Variable body : state -> state.
Variable cond : state -> bool.

(** [do { s = body s } while (cond s)], run for at most [fuel]
    iterations.  The result is the number of iterations executed and
    the state the loop leaves, or [None] when the fuel does not reach
    the exit. *)
Fixpoint do_while (fuel : nat) (s : state) : option (nat * state) :=
  match fuel with
  | O => None
  | S fuel' =>
      let s' := body s in
      if cond s' then
        match do_while fuel' s' with
        | Some (n, s'') => Some (S n, s'')
        | None => None
        end
      else Some (1%nat, s')
  end.

(** The states on which the body runs, in order, within [fuel]
    iterations. *)
Fixpoint do_while_visited (fuel : nat) (s : state) : list state :=
  match fuel with
  | O => []
  | S fuel' =>
      let s' := body s in
      s :: (if cond s' then do_while_visited fuel' s' else [])
  end.

End DoWhile.

Arguments do_while {state} body cond fuel s.
Arguments do_while_visited {state} body cond fuel s.

(** ** The source: [getQuerySymbol] *)

Definition indexToChar : string := "abcdefghijklmnopqrstuvwxyz".

(** The two variables of the function, [result] and [i]. *)
Record vars : Type := Vars { result : string; i : Z }.

(** The body of the loop:
    [result = indexToChar[i % indexToChar.length] + result;
     i = Math.floor(i / indexToChar.length) - 1;] *)
Definition loop_body (v : vars) : vars :=
  {| result :=
       Js.add (Js.index indexToChar (Js.rem (i v) (Js.length indexToChar)))
              (result v);
     i := Js.floor_div (i v) (Js.length indexToChar) - 1 |}.

(** The test of the loop: [i >= 0]. *)
Definition loop_cond (v : vars) : bool := 0 <=? i v.

(** [let result = ''; let i = index;] *)
Definition loop_init (index : Z) : vars := {| result := ""; i := index |}.

(** The loop of [getQuerySymbol] from its initial state *)
Definition getQuerySymbol_loop (fuel : nat) (index : Z) : option (nat * vars) :=
  do_while loop_body loop_cond fuel (loop_init index).

(** The function with a bound on the iterations: the value it returns,
    when the loop exits within [fuel] iterations. *)
Definition getQuerySymbol_fuel (fuel : nat) (index : Z) : option string :=
  option_map (fun r => result (snd r)) (getQuerySymbol_loop fuel index).

(** Iterations that suffice for [index]: two more than the binary
    logarithm of the index (see [getQuerySymbol_loop_exits]). *)
Definition iterations_bound (index : Z) : nat :=
  S (S (Z.to_nat (Z.log2 index))).

(** [getQuerySymbol index] *)
Definition getQuerySymbol (index : Z) : string :=
  match getQuerySymbol_fuel (iterations_bound index) index with
  | Some s => s
  | None => ""
  end.

(** The number of times the body of the loop runs in [getQuerySymbol index] *)
Definition getQuerySymbol_iterations (index : Z) : nat :=
  match getQuerySymbol_loop (iterations_bound index) index with
  | Some (n, _) => n
  | None => O
  end.

(** The call [getQuerySymbol(index)] as a completion.  The body has no
    [throw], and indexing a string, [+], [%], [/] and [Math.floor] do
    not throw either: every call returns. *)
Definition getQuerySymbol_call (index : Z) : Js.completion string :=
  Js.Return (getQuerySymbol index).

(** ** The source on doubles: [Binary64.getQuerySymbol]

    Binary64 has 53 significant bits and rounds every result to the
    nearest double, a tie to the one with the even last bit.  The
    quotients and differences of the loop are far from the subnormal
    and the overflowing doubles, so no bound on the exponent appears. *)

Module Binary64.

(** [floor (log2 (p / q))] for positive [p] and [q], read off the
    integer quotient of [p * 2^s] by [q], where [2^s > q] makes that
    quotient at least 1. *)
Definition binade (p q : Z) : Z :=
  let s := Z.log2 q + 1 in
  Z.log2 (p * 2 ^ s / q) - s.

(** The exponent [e] of the last of the 53 bits of a double of the
    magnitude of [p / q]: [2^52 <= (p / q) / 2^e < 2^53]. *)
Definition ulp_exponent (p q : Z) : Z := binade p q - 52.

(** [p / q] in units of [2^e], rounded to the nearest integer, a tie
    to the even one. *)
Definition round_mantissa (p q e : Z) : Z :=
  let num := p * 2 ^ Z.max 0 (- e) in
  let den := q * 2 ^ Z.max 0 e in
  let m := num / den in
  match 2 * (num mod den) ?= den with
  | Lt => m
  | Gt => m + 1
  | Eq => if Z.even m then m else m + 1
  end.

(** [floor (m * 2^e)] *)
Definition floor_scaled (m e : Z) : Z :=
  if 0 <=? e then m * 2 ^ e else m / 2 ^ (- e).

(** [Math.floor (a / b)] for integers [a] and [b > 0]: the quotient is
    rounded to a double, then floored.  Rounding is symmetric about 0. *)
Definition floor_div (a b : Z) : Z :=
  match a with
  | 0 => 0
  | Zpos _ =>
      let e := ulp_exponent a b in
      floor_scaled (round_mantissa a b e) e
  | Zneg _ =>
      let e := ulp_exponent (- a) b in
      floor_scaled (- round_mantissa (- a) b e) e
  end.

(** An integer rounded to a double; a double of 53 bits or more is an
    integer, so nothing is lost by the floor. *)
Definition round (z : Z) : Z := floor_div z 1.

(** [a - b] on integer-valued doubles: the difference, rounded. *)
Definition sub (a b : Z) : Z := round (a - b).

(** The body of the loop, on doubles. *)
Definition loop_body (v : vars) : vars :=
  {| result :=
       Js.add (Js.index indexToChar (Js.rem (i v) (Js.length indexToChar)))
              (result v);
     i := sub (floor_div (i v) (Js.length indexToChar)) 1 |}.

Definition getQuerySymbol_loop (fuel : nat) (index : Z) : option (nat * vars) :=
  do_while loop_body loop_cond fuel (loop_init index).

Definition getQuerySymbol_fuel (fuel : nat) (index : Z) : option string :=
  option_map (fun r => result (snd r)) (getQuerySymbol_loop fuel index).

(** [getQuerySymbol index], as the engine computes it. *)
Definition getQuerySymbol (index : Z) : string :=
  match getQuerySymbol_fuel (iterations_bound index) index with
  | Some s => s
  | None => ""
  end.

(** The number of times the body runs. *)
Definition getQuerySymbol_iterations (index : Z) : nat :=
  match getQuerySymbol_loop (iterations_bound index) index with
  | Some (n, _) => n
  | None => O
  end.

(** The states of the two variables on which the body runs, in order. *)
Definition getQuerySymbol_visited (index : Z) : list vars :=
  do_while_visited loop_body loop_cond (iterations_bound index)
    (loop_init index).

(** What one turn of the loop reads from [indexToChar] and prepends. *)
Definition lookup (v : vars) : Js.value :=
  Js.index indexToChar (Js.rem (i v) (Js.length indexToChar)).

End Binary64.

(** The same two operations through the Standard Library's
    specification of IEEE 754 arithmetic, [SpecFloat], at binary64
    ([prec = 53], [emax = 1024]); used to check [Binary64] on samples. *)
Module SpecFloat64.

Definition of_Z (z : Z) : spec_float := binary_normalize 53 1024 z 0 false.

Definition floor (x : spec_float) : option Z :=
  match x with
  | S754_zero _ => Some 0
  | S754_finite s m e =>
      Some (Binary64.floor_scaled (if s then Zneg m else Zpos m) e)
  | S754_infinity _ | S754_nan => None
  end.

Definition floor_div (a b : Z) : option Z :=
  floor (SFdiv 53 1024 (of_Z a) (of_Z b)).

Definition sub (a b : Z) : option Z :=
  floor (SFsub 53 1024 (of_Z a) (of_Z b)).

(** Doubles of every magnitude from 1 to [2^119]: [2^k + d * ulp]. *)
Definition samples : list Z :=
  flat_map
    (fun k =>
       map (fun d => 2 ^ Z.of_nat k + d * 2 ^ Z.max 0 (Z.of_nat k - 52))
         [0; 1; 2; 3; 5; 7; 11; 13; 24; 25; 26; 27; 51; 52; 701; 702; 12345;
          99999])
    (seq 0 120).

End SpecFloat64.

(** The letter ['a' + digit] *)
Definition letter (digit : Z) : ascii :=
  ascii_of_nat (nat_of_ascii "a" + Z.to_nat digit).

(** ** The component [QuerySymbol] *)

(** The two styled components a symbol is rendered with. *)
Inductive styled : Type := Symbol | DeprecatedSymbol.

Section Component.

(** What the component receives from outside: the organization of the
    enclosing context ([useOrganization ()]), the feature lookup
    [hasMetricsNewInputs], the props it passes on and the forwarded ref. *)
Variable organization : Type.
Variable hasMetricsNewInputs : organization -> bool.
Variable props : Type.
Variable ref : Type.

(** [<Component ref={ref} {...props}><span>{text}</span></Component>] *)
Record element : Type := Element {
  component : styled;
  element_ref : ref;
  element_props : props;
  span_text : string
}.

(** The text content of the rendered element: that of its only child. *)
Definition textContent (e : element) : string := span_text e.

(** [QuerySymbol ({queryId, ...props}, ref)]; [None] is [null]. *)
Definition QuerySymbol (org : organization) (queryId : Z) (p : props) (r : ref)
  : option element :=
  if queryId <? 0 then None
  else
    let Component :=
      if hasMetricsNewInputs org then Symbol else DeprecatedSymbol in
    Some {| component := Component;
            element_ref := r;
            element_props := p;
            span_text := getQuerySymbol queryId |}.

End Component.

Arguments QuerySymbol {organization} hasMetricsNewInputs {props ref}
  org queryId p r.
Arguments component {props ref} e.
Arguments textContent {props ref} e.

(** ** The algorithm as the specification words it *)

Module Reference.

(** The working value [i] and the accumulator. *)
Record state : Type := State { accumulator : string; working : Z }.

(** One pass: prepend the letter ['a' + (i mod 26)], then set
    [i = floor (i / 26) - 1]. *)
Definition pass (s : state) : state :=
  let digit := working s mod 26 in
  {| accumulator := String (letter digit) (accumulator s);
     working := working s / 26 - 1 |}.

(** Continue while [i >= 0]. *)
Definition continue (s : state) : bool := 0 <=? working s.

(** Start from [i = index] and an empty accumulator, run the pass at
    least once and again while the test holds, return the accumulator. *)
Definition generateLabel_fuel (fuel : nat) (index : Z) : option string :=
  option_map (fun r => accumulator (snd r))
    (do_while pass continue fuel {| accumulator := ""; working := index |}).

(** [generateLabel index] *)
Definition generateLabel (index : Z) : string :=
  match generateLabel_fuel (iterations_bound index) index with
  | Some s => s
  | None => ""
  end.

End Reference.

(** ** Labels *)

Definition is_lowercase (c : ascii) : bool :=
  (nat_of_ascii "a" <=? nat_of_ascii c)%nat
  && (nat_of_ascii c <=? nat_of_ascii "z")%nat.

Fixpoint all_lowercase (s : string) : bool :=
  match s with
  | EmptyString => true
  | String c s' => is_lowercase c && all_lowercase s'
  end.

(** A finite non-empty string over the letters a to z. *)
Definition is_label (s : string) : Prop :=
  s <> "" /\ all_lowercase s = true.

(** The position of a letter in the alphabet. *)
Definition digit_of (c : ascii) : Z :=
  Z.of_nat (nat_of_ascii c) - Z.of_nat (nat_of_ascii "a").

(** The index a label stands for, read from the left; [acc] is the index
    of the letters already read, [-1] when there are none. *)
Fixpoint symbol_index_from (acc : Z) (s : string) : Z :=
  match s with
  | EmptyString => acc
  | String c s' => symbol_index_from (26 * (acc + 1) + digit_of c) s'
  end.

Definition symbol_index (s : string) : Z := symbol_index_from (-1) s.

(** Spreadsheet-column order: shorter names first, names of one length
    in alphabetical order. *)
Definition column_lt (s t : string) : Prop :=
  (String.length s < String.length t)%nat
  \/ (String.length s = String.length t /\ String.compare s t = Lt).

(** [26 + 26^2 + ... + 26^k] *)
Fixpoint threshold (k : nat) : Z :=
  match k with
  | O => 0
  | S k' => threshold k' + 26 ^ Z.of_nat k
  end.

Definition is_threshold (n : Z) : Prop :=
  exists k : nat, (1 <= k)%nat /\ n = threshold k.

(** ** The page [ResourceSummary]

    The page reads its filters, the group of the route and the rows of
    the span-metrics query from hooks, picks the row to show and
    decides whether the resource is an image.  The hooks' results are
    arguments here; the constants [ResourceSpanOps.IMAGE] and
    [IMAGE_FILE_EXTENSIONS], declared in other files, are parameters.
    A value that may be [undefined] is an [option]. *)

(** [s.split (sep)] for a separator of one character: the pieces of [s]
    between the occurrences of [sep], at least one piece. *)
Fixpoint split (sep : ascii) (s : string) : list string :=
  match s with
  | EmptyString => [EmptyString]
  | String c s' =>
      if Ascii.eqb c sep then EmptyString :: split sep s'
      else match split sep s' with
           | piece :: pieces => String c piece :: pieces
           | [] => [String c EmptyString]
           end
  end.

(** [a.pop ()]: the last element, [undefined] on the empty array. *)
Fixpoint pop (a : list string) : option string :=
  match a with
  | [] => None
  | [x] => Some x
  | _ :: a' => pop a'
  end.

(** [v || ''] for a string or [undefined]: the empty string replaces
    [undefined], and the empty string itself. *)
Definition or_empty (v : option string) : string :=
  match v with
  | Some s => s
  | None => ""
  end.

(** A string or [undefined] as a condition: only a non-empty string
    is truthy. *)
Definition truthy (v : option string) : bool :=
  match v with
  | Some s => negb (s =? "")%string
  | None => false
  end.

(** [a === b] on strings and [undefined]. *)
Definition strict_eq (a b : option string) : bool :=
  match a, b with
  | Some x, Some y => (x =? y)%string
  | None, None => true
  | _, _ => false
  end.

(** [set.add (x)]: a set keeps its members in the order they came. *)
Definition set_add (set : list (option string)) (x : option string)
  : list (option string) :=
  if existsb (strict_eq x) set then set else (set ++ [x])%list.

(** [new Set (values)] *)
Definition new_Set (values : list (option string)) : list (option string) :=
  fold_left set_add values [].

(** Whether the character occurs in the string. *)
Fixpoint has_char (c : ascii) (s : string) : bool :=
  match s with
  | EmptyString => false
  | String a s' => Ascii.eqb a c || has_char c s'
  end.

(** [description?.split ('.').pop () || ''] *)
Definition fileExtension (description : option string) : string :=
  or_empty
    match description with
    | Some d => pop (split "." d)
    | None => None
    end.

Section ResourceSummaryPage.

(** The numbers of the response, which the page passes on unread, and
    the route parameter [groupId]. *)
Variable number : Type.
Variable param : Type.

(** [ResourceSpanOps.IMAGE] and [IMAGE_FILE_EXTENSIONS] *)
Variable IMAGE : string.
Variable IMAGE_FILE_EXTENSIONS : list string.

(** A row of [data], by the fields the query asks for; the object [{}]
    has none of them. *)
Record row : Type := Row {
  span_op : option string;
  span_description : option string;
  project_id : option number;
  avg_span_self_time : option number;
  avg_http_response_content_length : option number;
  avg_http_decoded_response_content_length : option number;
  avg_http_response_transfer_size : option number;
  sum_span_self_time : option number;
  spm : option number;
  time_spent_percentage : option number
}.

Definition empty_row : row :=
  {| span_op := None; span_description := None; project_id := None;
     avg_span_self_time := None; avg_http_response_content_length := None;
     avg_http_decoded_response_content_length := None;
     avg_http_response_transfer_size := None; sum_span_self_time := None;
     spm := None; time_spent_percentage := None |}.

(** The two filters the page reads: [filters[SPAN_OP]] and
    [filters[RESOURCE_RENDER_BLOCKING_STATUS]]. *)
Record filters : Type := Filters {
  filter_span_op : option string;
  filter_render_blocking_status : option string
}.

(** [selectedSpanOp
      ? data.find(item => item[SPAN_OP] === selectedSpanOp) ?? {}
      : data[0] ?? {}] *)
Definition spanMetrics (f : filters) (data : list row) : row :=
  let selectedSpanOp := filter_span_op f in
  if truthy selectedSpanOp then
    match find (fun item => strict_eq (span_op item) selectedSpanOp) data with
    | Some item => item
    | None => empty_row
    end
  else
    match hd_error data with
    | Some item => item
    | None => empty_row
    end.

(** [new Set(data.map(item => item[SPAN_OP]))] *)
Definition uniqueSpanOps (data : list row) : list (option string) :=
  new_Set (map span_op data).

(** [filters[SPAN_OP] === ResourceSpanOps.IMAGE
     || IMAGE_FILE_EXTENSIONS.includes(
          spanMetrics[SPAN_DESCRIPTION]?.split('.').pop() || '')
     || (uniqueSpanOps.size === 1
         && spanMetrics[SPAN_OP] === ResourceSpanOps.IMAGE)] *)
Definition isImage (f : filters) (data : list row) : bool :=
  strict_eq (filter_span_op f) (Some IMAGE)
  || existsb
       (String.eqb (fileExtension (span_description (spanMetrics f data))))
       IMAGE_FILE_EXTENSIONS
  || ((List.length (uniqueSpanOps data) =? 1)%nat
      && strict_eq (span_op (spanMetrics f data)) (Some IMAGE)).

(** The props of [<ResourceInfo />] *)
Record resource_info : Type := ResourceInfo {
  isLoading : bool;
  avgContentLength : option number;
  avgDecodedContentLength : option number;
  avgTransferSize : option number;
  avgDuration : option number;
  throughput : option number;
  timeSpentTotal : option number;
  timeSpentPercentage : option number
}.

(** The props of [<SampleImages />] *)
Record sample_images : Type := SampleImages {
  sample_groupId : param;
  sample_projectId : option number
}.

(** What the page renders out of its data: the title, the value of the
    render-blocking selector, the resource info and, for an image, the
    sample images.  The rest of the tree does not depend on the data. *)
Record page : Type := Page {
  title : option string;
  renderBlockingValue : string;
  resourceInfo : resource_info;
  sampleImages : option sample_images
}.

Definition ResourceSummary
  (groupId : param) (f : filters) (data : list row) (loading : bool) : page :=
  let metrics := spanMetrics f data in
  {| title := span_description metrics;
     renderBlockingValue := or_empty (filter_render_blocking_status f);
     resourceInfo :=
       {| isLoading := loading;
          avgContentLength := avg_http_response_content_length metrics;
          avgDecodedContentLength :=
            avg_http_decoded_response_content_length metrics;
          avgTransferSize := avg_http_response_transfer_size metrics;
          avgDuration := avg_span_self_time metrics;
          throughput := spm metrics;
          timeSpentTotal := sum_span_self_time metrics;
          timeSpentPercentage := time_spent_percentage metrics |};
     sampleImages :=
       if isImage f data then
         Some {| sample_groupId := groupId;
                 sample_projectId :=
                   match hd_error data with
                   | Some item => project_id item
                   | None => None
                   end |}
       else None |}.

End ResourceSummaryPage.

Arguments span_op {number} r.
Arguments span_description {number} r.
Arguments project_id {number} r.
Arguments empty_row {number}.
Arguments spanMetrics {number} f data.
Arguments uniqueSpanOps {number} data.
Arguments isImage {number} IMAGE IMAGE_FILE_EXTENSIONS f data.
Arguments ResourceSummary {number param} IMAGE IMAGE_FILE_EXTENSIONS
  groupId f data loading.
Arguments title {number param} p.
Arguments sampleImages {number param} p.
Arguments sample_groupId {number param} s.
Arguments sample_projectId {number param} s.

(** * Properties *)

(** ** Do-while loops *)

Section DoWhileFacts.

Variable state : Type.
Variable body : state -> state.
Variable cond : state -> bool.

Lemma do_while_S (fuel : nat) (s : state) :
  do_while body cond (S fuel) s =
  if cond (body s) then
    match do_while body cond fuel (body s) with
    | Some (n, s'') => Some (S n, s'')
    | None => None
    end
  else Some (1%nat, body s).
Proof. reflexivity. Qed.

Lemma do_while_more_fuel (fuel : nat) :
  forall s r, do_while body cond fuel s = Some r -> do_while body cond (S fuel) s = Some r.
Proof.
  induction fuel as [|fuel IH]; intros s r H; [discriminate|].
  rewrite do_while_S in H. rewrite (do_while_S (S fuel)).
  destruct (cond (body s)); [|exact H].
  destruct (do_while body cond fuel (body s)) as [[n s'']|] eqn:E; [|discriminate].
  rewrite (IH _ _ E). exact H.
Qed.

Lemma do_while_fuel_le (fuel fuel' : nat) s r :
  (fuel <= fuel')%nat ->
  do_while body cond fuel s = Some r -> do_while body cond fuel' s = Some r.
Proof.
  induction 1 as [|m _ IH]; [trivial|].
  intros H. apply do_while_more_fuel, IH, H.
Qed.

(** The iteration count of a run never exceeds the fuel, and is at
    least one: the body runs before the first test. *)
Lemma do_while_count (fuel : nat) :
  forall s n s', do_while body cond fuel s = Some (n, s') -> (1 <= n <= fuel)%nat.
Proof.
  induction fuel as [|fuel IH]; intros s n s' H; [discriminate|].
  rewrite do_while_S in H.
  destruct (cond (body s)).
  - destruct (do_while body cond fuel (body s)) as [[m t]|] eqn:E; [|discriminate].
    injection H as <- <-. apply IH in E. lia.
  - injection H as <- <-. lia.
Qed.

(** The loop leaves on a state that fails the test. *)
Lemma do_while_exit (fuel : nat) :
  forall s n s', do_while body cond fuel s = Some (n, s') -> cond s' = false.
Proof.
  induction fuel as [|fuel IH]; intros s n s' H; [discriminate|].
  rewrite do_while_S in H.
  destruct (cond (body s)) eqn:C.
  - destruct (do_while body cond fuel (body s)) as [[m t]|] eqn:E; [|discriminate].
    injection H as <- <-. eapply IH, E.
  - injection H as <- <-. exact C.
Qed.

(** As many units of fuel as iterations are enough. *)
Lemma do_while_exact (fuel : nat) :
  forall s n s',
    do_while body cond fuel s = Some (n, s') ->
    do_while body cond n s = Some (n, s').
Proof.
  induction fuel as [|fuel IH]; intros s n s' H; [discriminate|].
  rewrite do_while_S in H.
  destruct (cond (body s)) eqn:C.
  - destruct (do_while body cond fuel (body s)) as [[m t]|] eqn:E; [|discriminate].
    injection H as <- <-. rewrite do_while_S, C, (IH _ _ _ E). reflexivity.
  - injection H as <- <-. rewrite do_while_S, C. reflexivity.
Qed.

End DoWhileFacts.

(** ** Strings *)

Lemma append_empty_r (s : string) : s ++ "" = s.
Proof. induction s as [|c s IH]; cbn; [reflexivity | now rewrite IH]. Qed.

Lemma append_assoc (s t u : string) : (s ++ t) ++ u = s ++ (t ++ u).
Proof. induction s as [|c s IH]; cbn; [reflexivity | now rewrite IH]. Qed.

Lemma length_append (s t : string) :
  String.length (s ++ t) = (String.length s + String.length t)%nat.
Proof. induction s as [|c s IH]; cbn; [reflexivity | now rewrite IH]. Qed.

Lemma all_lowercase_append (s t : string) :
  all_lowercase (s ++ t) = all_lowercase s && all_lowercase t.
Proof.
  induction s as [|c s IH]; cbn; [reflexivity|].
  now rewrite IH, andb_assoc.
Qed.

(** ** The alphabet *)

Lemma indexToChar_length : Js.length indexToChar = 26.
Proof. reflexivity. Qed.

(** Within the bounds of the string the lookup finds the letter
    ['a' + d]. *)
Lemma indexToChar_letter (d : Z) :
  0 <= d < 26 -> Js.index indexToChar d = Js.Str (String (letter d) "").
Proof.
  intros Hd.
  assert (exists k : nat, d = Z.of_nat k /\ (k < 26)%nat) as (k & -> & Hk).
  { exists (Z.to_nat d). lia. }
  do 26 (destruct k as [|k]; [reflexivity|]). lia.
Qed.

(** Below the string the lookup finds nothing. *)
Lemma indexToChar_negative (d : Z) :
  d < 0 -> Js.index indexToChar d = Js.Undefined.
Proof.
  intros Hd. unfold Js.index.
  destruct (Z.ltb_spec d 0); [reflexivity | lia].
Qed.

Lemma letter_lowercase (d : Z) : 0 <= d < 26 -> is_lowercase (letter d) = true.
Proof.
  intros Hd.
  assert (exists k : nat, d = Z.of_nat k /\ (k < 26)%nat) as (k & -> & Hk).
  { exists (Z.to_nat d). lia. }
  do 26 (destruct k as [|k]; [reflexivity|]). lia.
Qed.

Lemma digit_of_letter (d : Z) : 0 <= d < 26 -> digit_of (letter d) = d.
Proof.
  intros Hd. unfold digit_of, letter.
  rewrite nat_ascii_embedding; [lia|].
  change (nat_of_ascii "a") with 97%nat. lia.
Qed.

Lemma is_lowercase_digit (c : ascii) :
  is_lowercase c = true -> 0 <= digit_of c < 26.
Proof.
  unfold is_lowercase, digit_of.
  change (nat_of_ascii "a") with 97%nat. change (nat_of_ascii "z") with 122%nat.
  rewrite andb_true_iff, !Nat.leb_le. lia.
Qed.

Lemma letter_digit_of (c : ascii) :
  is_lowercase c = true -> letter (digit_of c) = c.
Proof.
  intros Hc. pose proof (is_lowercase_digit c Hc) as Hd.
  unfold digit_of, letter in *.
  change (nat_of_ascii "a") with 97%nat in *.
  replace (97 + Z.to_nat (Z.of_nat (nat_of_ascii c) - Z.of_nat 97))%nat
    with (nat_of_ascii c) by lia.
  apply ascii_nat_embedding.
Qed.

(** ** The loop of [getQuerySymbol] *)

Lemma loop_body_eq (v : vars) :
  loop_body v =
  {| result := Js.to_string (Js.index indexToChar (Z.rem (i v) 26)) ++ result v;
     i := i v / 26 - 1 |}.
Proof. reflexivity. Qed.

Lemma loop_cond_eq (v : vars) : loop_cond v = (0 <=? i v).
Proof. reflexivity. Qed.

(** The working value strictly decreases while it is not negative. *)
Lemma loop_body_decreases (v : vars) :
  0 <= i v -> i (loop_body v) <= i v - 1 /\ i (loop_body v) < i v.
Proof.
  intros Hi. rewrite loop_body_eq. cbn [i].
  assert (i v / 26 <= i v) by (apply Z.div_le_upper_bound; lia).
  lia.
Qed.

(** A negative working value stays negative: the loop ends on it. *)
Lemma loop_body_negative (v : vars) : i v < 26 -> i (loop_body v) < 0.
Proof.
  intros Hi. rewrite loop_body_eq. cbn [i].
  assert (i v / 26 < 1) by (apply Z.div_lt_upper_bound; lia).
  lia.
Qed.

(** The letters already in [result] ride along: the loop only prepends. *)
Lemma loop_accumulates (fuel : nat) :
  forall (acc : string) (n : Z),
    do_while loop_body loop_cond fuel {| result := acc; i := n |} =
    option_map
      (fun r => (fst r, {| result := result (snd r) ++ acc; i := i (snd r) |}))
      (do_while loop_body loop_cond fuel {| result := ""; i := n |}).
Proof.
  induction fuel as [|fuel IH]; intros acc n; [reflexivity|].
  rewrite !do_while_S, !loop_body_eq, !loop_cond_eq. cbn [result i].
  set (c := Js.to_string (Js.index indexToChar (Z.rem n 26))).
  destruct (0 <=? n / 26 - 1).
  - rewrite (IH (c ++ acc)), (IH (c ++ "")).
    destruct (do_while loop_body loop_cond fuel _) as [[k v]|]; cbn; [|reflexivity].
    now rewrite append_assoc, append_assoc.
  - cbn. now rewrite append_assoc.
Qed.

(** The loop exits within the iterations the bound allows. *)
Lemma loop_exits (fuel : nat) :
  forall (acc : string) (n : Z),
    n < 2 ^ Z.of_nat fuel ->
    exists r, do_while loop_body loop_cond (S fuel) {| result := acc; i := n |}
              = Some r.
Proof.
  induction fuel as [|fuel IH]; intros acc n Hn;
    rewrite do_while_S, loop_body_eq, loop_cond_eq; cbn [i result].
  - destruct (Z.leb_spec 0 (n / 26 - 1)) as [H|H]; [|eauto].
    assert (n / 26 < 1) by (apply Z.div_lt_upper_bound; cbn in Hn; lia). lia.
  - destruct (Z.leb_spec 0 (n / 26 - 1)) as [H|H]; [|eauto].
    assert (n / 26 < 2 ^ Z.of_nat fuel) as Hq.
    { apply Z.div_lt_upper_bound; [lia|].
      rewrite Nat2Z.inj_succ, Z.pow_succ_r in Hn by lia.
      assert (0 < 2 ^ Z.of_nat fuel) by (apply Z.pow_pos_nonneg; lia). lia. }
    destruct (IH (Js.to_string (Js.index indexToChar (Z.rem n 26)) ++ acc)
                 (n / 26 - 1)) as [[k v] E]; [lia|].
    rewrite E. eauto.
Qed.

Lemma index_below_bound (index : Z) :
  index < 2 ^ Z.of_nat (S (Z.to_nat (Z.log2 index))).
Proof.
  rewrite Nat2Z.inj_succ, Z2Nat.id by apply Z.log2_nonneg.
  destruct (Z.le_gt_cases index 0) as [H|H].
  - assert (0 < 2 ^ Z.succ (Z.log2 index))
      by (apply Z.pow_pos_nonneg; [lia | pose proof (Z.log2_nonneg index); lia]).
    lia.
  - apply Z.log2_spec, H.
Qed.

(** [getQuerySymbol] returns: its loop exits within the iterations
    [iterations_bound] allows, for every integer. *)
Lemma getQuerySymbol_loop_exits (index : Z) :
  exists r, getQuerySymbol_loop (iterations_bound index) index = Some r.
Proof. apply loop_exits, index_below_bound. Qed.

(** Whatever fuel lets the loop exit, it exits with the value and after
    the iterations of [getQuerySymbol]. *)
Lemma getQuerySymbol_loop_any_fuel (fuel : nat) (index : Z) (n : nat) (v : vars) :
  getQuerySymbol_loop fuel index = Some (n, v) ->
  getQuerySymbol index = result v /\ getQuerySymbol_iterations index = n.
Proof.
  intros H. destruct (getQuerySymbol_loop_exits index) as [[m w] E].
  unfold getQuerySymbol, getQuerySymbol_fuel, getQuerySymbol_iterations.
  rewrite E. cbn.
  unfold getQuerySymbol_loop in *.
  apply (do_while_fuel_le _ _ _ _ (Nat.max fuel (iterations_bound index))) in H;
    [|lia].
  apply (do_while_fuel_le _ _ _ _ (Nat.max fuel (iterations_bound index))) in E;
    [|lia].
  rewrite H in E. injection E as <- <-. split; reflexivity.
Qed.

(** An index below 26, negative ones included, takes one iteration. *)
Lemma getQuerySymbol_loop_one (index : Z) :
  index < 26 ->
  getQuerySymbol_loop 1 index = Some (1%nat, loop_body (loop_init index)).
Proof.
  intros H. unfold getQuerySymbol_loop. rewrite do_while_S, loop_cond_eq.
  pose proof (loop_body_negative (loop_init index) H) as Hneg.
  destruct (Z.leb_spec 0 (i (loop_body (loop_init index)))); [lia | reflexivity].
Qed.

(** From 26 on, the loop goes round again on [index / 26 - 1]. *)
Lemma getQuerySymbol_loop_again (fuel : nat) (index : Z) (n : nat) (v : vars) :
  26 <= index ->
  getQuerySymbol_loop fuel (index / 26 - 1) = Some (n, v) ->
  getQuerySymbol_loop (S fuel) index =
  Some (S n,
        {| result :=
             result v ++ Js.to_string (Js.index indexToChar (Z.rem index 26));
           i := i v |}).
Proof.
  intros H E. unfold getQuerySymbol_loop in *.
  rewrite do_while_S, loop_cond_eq, loop_body_eq. cbn [loop_init i result].
  assert (1 <= index / 26) by (apply Z.div_le_lower_bound; lia).
  destruct (Z.leb_spec 0 (index / 26 - 1)); [|lia].
  rewrite loop_accumulates. unfold loop_init in E. rewrite E. cbn.
  now rewrite append_empty_r.
Qed.

Lemma getQuerySymbol_below_26 (index : Z) :
  index < 26 ->
  getQuerySymbol index = Js.to_string (Js.index indexToChar (Z.rem index 26))
  /\ getQuerySymbol_iterations index = 1%nat.
Proof.
  intros H.
  destruct (getQuerySymbol_loop_any_fuel _ _ _ _ (getQuerySymbol_loop_one index H))
    as [-> ->].
  rewrite loop_body_eq. cbn. now rewrite append_empty_r.
Qed.

Lemma getQuerySymbol_from_26 (index : Z) :
  26 <= index ->
  getQuerySymbol index =
    getQuerySymbol (index / 26 - 1)
    ++ Js.to_string (Js.index indexToChar (Z.rem index 26))
  /\ getQuerySymbol_iterations index =
     S (getQuerySymbol_iterations (index / 26 - 1)).
Proof.
  intros H.
  destruct (getQuerySymbol_loop_exits (index / 26 - 1)) as [[n v] E].
  destruct (getQuerySymbol_loop_any_fuel _ _ _ _ E) as [-> ->].
  destruct (getQuerySymbol_loop_any_fuel _ _ _ _
              (getQuerySymbol_loop_again _ _ _ _ H E)) as [-> ->].
  split; reflexivity.
Qed.

(** The two equations of bijective base 26. *)
Lemma getQuerySymbol_digit (d : Z) :
  0 <= d < 26 -> getQuerySymbol d = String (letter d) "".
Proof.
  intros Hd. destruct (getQuerySymbol_below_26 d) as [-> _]; [lia|].
  rewrite Z.rem_small by lia. now rewrite indexToChar_letter.
Qed.

Lemma getQuerySymbol_snoc (n d : Z) :
  0 <= n -> 0 <= d < 26 ->
  getQuerySymbol (26 * (n + 1) + d) = getQuerySymbol n ++ String (letter d) "".
Proof.
  intros Hn Hd.
  destruct (getQuerySymbol_from_26 (26 * (n + 1) + d)) as [-> _]; [lia|].
  replace ((26 * (n + 1) + d) / 26 - 1) with n.
  2:{ rewrite Z.mul_comm, Z.div_add_l, Z.div_small by lia. lia. }
  rewrite Z.rem_mod_nonneg by lia.
  replace ((26 * (n + 1) + d) mod 26) with d.
  2:{ rewrite Z.add_comm, Z.mul_comm, Z.mod_add, Z.mod_small by lia. lia. }
  now rewrite indexToChar_letter.
Qed.

Lemma iterations_digit (d : Z) :
  d < 26 -> getQuerySymbol_iterations d = 1%nat.
Proof. intros Hd. now destruct (getQuerySymbol_below_26 d Hd). Qed.

Lemma iterations_snoc (n d : Z) :
  0 <= n -> 0 <= d < 26 ->
  getQuerySymbol_iterations (26 * (n + 1) + d) = S (getQuerySymbol_iterations n).
Proof.
  intros Hn Hd.
  destruct (getQuerySymbol_from_26 (26 * (n + 1) + d)) as [_ ->]; [lia|].
  replace ((26 * (n + 1) + d) / 26 - 1) with n; [reflexivity|].
  rewrite Z.mul_comm, Z.div_add_l, Z.div_small by lia. lia.
Qed.

(** Induction over the indices the way the loop visits them: the last
    letter first, then the index of the letters before it. *)
Lemma index_ind (P : Z -> Prop) :
  (forall d, 0 <= d < 26 -> P d) ->
  (forall n d, 0 <= n -> 0 <= d < 26 -> P n -> P (26 * (n + 1) + d)) ->
  forall n, 0 <= n -> P n.
Proof.
  intros Hdigit Hsnoc.
  assert (forall m : nat, forall n, 0 <= n < Z.of_nat m -> P n) as Hall.
  { induction m as [|m IH]; intros n Hn; [lia|].
    destruct (Z.lt_ge_cases n 26) as [Hlt|Hge]; [apply Hdigit; lia|].
    pose proof (Z.div_mod n 26 ltac:(lia)) as Hdm.
    pose proof (Z.mod_pos_bound n 26 ltac:(lia)) as Hmod.
    replace n with (26 * ((n / 26 - 1) + 1) + n mod 26) by lia.
    apply Hsnoc; [lia | lia |]. apply IH. lia. }
  intros n Hn. apply (Hall (S (Z.to_nat n))). lia.
Qed.

(** Every lookup the loop makes on a working value that is not negative
    is within the alphabet: the body prepends one lowercase letter. *)
Lemma loop_body_prepends_letter (v : vars) :
  0 <= i v ->
  exists c, is_lowercase c = true
            /\ Js.index indexToChar (Js.rem (i v) (Js.length indexToChar))
               = Js.Str (String c "")
            /\ result (loop_body v) = String c (result v).
Proof.
  intros Hi. exists (letter (i v mod 26)).
  pose proof (Z.mod_pos_bound (i v) 26 ltac:(lia)) as Hmod.
  assert (Js.index indexToChar (Js.rem (i v) (Js.length indexToChar))
          = Js.Str (String (letter (i v mod 26)) "")) as E.
  { rewrite indexToChar_length. unfold Js.rem.
    rewrite Z.rem_mod_nonneg by lia. now apply indexToChar_letter. }
  split; [now apply letter_lowercase|]. split; [exact E|].
  unfold loop_body. cbn [result]. now rewrite E.
Qed.

Lemma getQuerySymbol_lowercase (n : Z) :
  0 <= n -> all_lowercase (getQuerySymbol n) = true.
Proof.
  revert n. apply index_ind.
  - intros d Hd. rewrite getQuerySymbol_digit by lia. cbn.
    now rewrite letter_lowercase.
  - intros n d Hn Hd IH. rewrite getQuerySymbol_snoc by lia.
    rewrite all_lowercase_append, IH. cbn. now rewrite letter_lowercase.
Qed.

Lemma getQuerySymbol_length_iterations (n : Z) :
  0 <= n -> String.length (getQuerySymbol n) = getQuerySymbol_iterations n.
Proof.
  revert n. apply index_ind.
  - intros d Hd. now rewrite getQuerySymbol_digit, iterations_digit by lia.
  - intros n d Hn Hd IH.
    rewrite getQuerySymbol_snoc, iterations_snoc, length_append, IH by lia.
    cbn. lia.
Qed.

Lemma getQuerySymbol_nonempty (n : Z) : 0 <= n -> getQuerySymbol n <> "".
Proof.
  intros Hn E. apply (f_equal String.length) in E.
  rewrite getQuerySymbol_length_iterations in E by lia.
  destruct (Z.lt_ge_cases n 26).
  - rewrite iterations_digit in E by lia. discriminate.
  - destruct (getQuerySymbol_from_26 n) as [_ E']; [lia|].
    rewrite E' in E. discriminate.
Qed.

Lemma getQuerySymbol_label (n : Z) : 0 <= n -> is_label (getQuerySymbol n).
Proof.
  intros Hn. split;
    [now apply getQuerySymbol_nonempty | now apply getQuerySymbol_lowercase].
Qed.

(** ** The claims about the values of [getQuerySymbol] *)

(** C3: the literal cases of the specification: 0 gives "a", 1 gives
    "b", 25 gives "z", 26 gives "aa", 27 gives "ab", 51 gives "az",
    52 gives "ba", 701 gives "zz" and 702 gives "aaa". *)
Theorem getQuerySymbol_literal_cases :
  getQuerySymbol 0 = "a" /\ getQuerySymbol 1 = "b" /\ getQuerySymbol 25 = "z"
  /\ getQuerySymbol 26 = "aa" /\ getQuerySymbol 27 = "ab"
  /\ getQuerySymbol 51 = "az" /\ getQuerySymbol 52 = "ba"
  /\ getQuerySymbol 701 = "zz" /\ getQuerySymbol 702 = "aaa".
Proof. repeat split; vm_compute; reflexivity. Qed.

(** ** The source against the algorithm of the specification *)

(** On a working value that is not negative, a pass of the reference
    algorithm and a turn of the source's loop do the same. *)
Lemma reference_simulates (fuel : nat) :
  forall (acc : string) (n : Z),
    0 <= n ->
    do_while Reference.pass Reference.continue fuel
      {| Reference.accumulator := acc; Reference.working := n |} =
    option_map
      (fun r => (fst r, {| Reference.accumulator := result (snd r);
                           Reference.working := i (snd r) |}))
      (do_while loop_body loop_cond fuel {| result := acc; i := n |}).
Proof.
  induction fuel as [|fuel IH]; intros acc n Hn; [reflexivity|].
  rewrite !do_while_S, loop_cond_eq, loop_body_eq.
  unfold Reference.continue at 1. unfold Reference.pass at 1 2 3.
  cbn [result i Reference.accumulator Reference.working].
  pose proof (Z.mod_pos_bound n 26 ltac:(lia)) as Hmod.
  rewrite Z.rem_mod_nonneg, indexToChar_letter by lia.
  cbn [Js.to_string append].
  destruct (Z.leb_spec 0 (n / 26 - 1)) as [H|H]; [|reflexivity].
  rewrite IH by lia.
  destruct (do_while loop_body loop_cond fuel _) as [[k v]|]; reflexivity.
Qed.

(** ** Termination *)

Lemma iterations_le_index (n : Z) :
  0 <= n -> (getQuerySymbol_iterations n <= Z.to_nat n + 1)%nat.
Proof.
  revert n. apply index_ind.
  - intros d Hd. rewrite iterations_digit by lia. lia.
  - intros n d Hn Hd IH. rewrite iterations_snoc by lia. lia.
Qed.

(** The run of the loop: it exits after [getQuerySymbol_iterations]
    turns, on a negative working value, whatever fuel at least that
    large it is given. *)
Lemma getQuerySymbol_run (index : Z) :
  exists v,
    i v < 0
    /\ result v = getQuerySymbol index
    /\ forall fuel, (getQuerySymbol_iterations index <= fuel)%nat ->
         getQuerySymbol_loop fuel index
         = Some (getQuerySymbol_iterations index, v).
Proof.
  destruct (getQuerySymbol_loop_exits index) as [[n v] E].
  destruct (getQuerySymbol_loop_any_fuel _ _ _ _ E) as [Hr Hn].
  exists v. rewrite Hr, Hn. unfold getQuerySymbol_loop in *.
  pose proof (do_while_exit _ _ _ _ _ _ _ E) as Hexit.
  rewrite loop_cond_eq in Hexit. apply Z.leb_gt in Hexit.
  split; [exact Hexit|]. split; [reflexivity|].
  intros fuel Hfuel. apply (do_while_fuel_le _ _ _ n); [exact Hfuel|].
  eapply do_while_exact, E.
Qed.



(** ** Negative indices *)

(** A negative index whose remainder is not zero reads outside the
    alphabet, and the text of [undefined] is returned. *)
Lemma getQuerySymbol_negative_remainder (index : Z) :
  index < 0 -> Js.rem index 26 < 0 ->
  Js.index indexToChar (Js.rem index 26) = Js.Undefined
  /\ getQuerySymbol index = "undefined".
Proof.
  intros Hindex Hrem. unfold Js.rem in *.
  destruct (getQuerySymbol_below_26 index) as [-> _]; [lia|].
  rewrite indexToChar_negative by lia. split; reflexivity.
Qed.

(** A negative multiple of 26 has the remainder [-0], which reads the
    first letter. *)
Lemma getQuerySymbol_negative_multiple (index : Z) :
  index < 0 -> Js.rem index 26 = 0 -> getQuerySymbol index = "a".
Proof.
  intros Hindex Hrem. unfold Js.rem in *.
  destruct (getQuerySymbol_below_26 index) as [-> _]; [lia|].
  rewrite Hrem. reflexivity.
Qed.

(** The function has no validation of its argument: on [-1] the call
    returns the string "undefined" and does not throw. *)
Lemma getQuerySymbol_negative_returns :
  getQuerySymbol_call (-1) = Js.Return "undefined"
  /\ getQuerySymbol_fuel 1 (-1) = Some "undefined".
Proof. split; vm_compute; reflexivity. Qed.

(** C6, as the source has it: [getQuerySymbol] does not reject a
    negative index.  For every negative integer the call signals no
    error and returns a string, the one its loop leaves after a single
    turn. *)
Theorem getQuerySymbol_negative_no_error (index : Z) :
  index < 0 ->
  exists s : string,
    getQuerySymbol_fuel 1 index = Some s
    /\ getQuerySymbol_call index = Js.Return s
    /\ forall error, getQuerySymbol_call index <> Js.Throw error.
Proof.
  intros Hindex.
  exists (result (loop_body (loop_init index))).
  pose proof (getQuerySymbol_loop_one index ltac:(lia)) as E.
  destruct (getQuerySymbol_loop_any_fuel _ _ _ _ E) as [Hs _].
  split; [unfold getQuerySymbol_fuel; now rewrite E|].
  split; [unfold getQuerySymbol_call; now rewrite Hs|].
  intros error. discriminate.
Qed.

Lemma getQuerySymbol_negative_no_error_witness :
  -26 < 0
  /\ exists s : string,
       getQuerySymbol_fuel 1 (-26) = Some s
       /\ getQuerySymbol_call (-26) = Js.Return s
       /\ forall error, getQuerySymbol_call (-26) <> Js.Throw error.
Proof.
  split; [lia|]. apply (getQuerySymbol_negative_no_error (-26)). lia.
Defined.

(** ** The component *)



(** ** Reading a symbol back *)

Lemma symbol_index_from_snoc (s : string) :
  forall (acc : Z) (c : ascii),
    symbol_index_from acc (s ++ String c "")
    = 26 * (symbol_index_from acc s + 1) + digit_of c.
Proof.
  induction s as [|a s IH]; intros acc c; cbn [append symbol_index_from];
    [reflexivity | apply IH].
Qed.

Lemma symbol_index_getQuerySymbol (n : Z) :
  0 <= n -> symbol_index (getQuerySymbol n) = n.
Proof.
  revert n. apply index_ind.
  - intros d Hd. rewrite getQuerySymbol_digit by lia.
    unfold symbol_index. cbn [symbol_index_from].
    rewrite digit_of_letter by lia. lia.
  - intros n d Hn Hd IH. rewrite getQuerySymbol_snoc by lia.
    unfold symbol_index in *.
    rewrite symbol_index_from_snoc, IH, digit_of_letter by lia. reflexivity.
Qed.

Lemma getQuerySymbol_symbol_index_from (s : string) :
  forall acc : Z,
    0 <= acc -> all_lowercase s = true ->
    0 <= symbol_index_from acc s
    /\ getQuerySymbol (symbol_index_from acc s) = getQuerySymbol acc ++ s.
Proof.
  induction s as [|c s IH]; intros acc Hacc Hs; cbn [symbol_index_from].
  - split; [lia | now rewrite append_empty_r].
  - cbn in Hs. apply andb_true_iff in Hs as [Hc Hs].
    pose proof (is_lowercase_digit c Hc) as Hd.
    destruct (IH (26 * (acc + 1) + digit_of c)) as [Hnn E]; [lia | exact Hs |].
    split; [exact Hnn|].
    rewrite E, getQuerySymbol_snoc, letter_digit_of, append_assoc by assumption.
    reflexivity.
Qed.

Lemma getQuerySymbol_symbol_index (s : string) :
  is_label s -> 0 <= symbol_index s /\ getQuerySymbol (symbol_index s) = s.
Proof.
  intros [Hne Hs]. destruct s as [|c s]; [contradiction|].
  cbn in Hs. apply andb_true_iff in Hs as [Hc Hs].
  pose proof (is_lowercase_digit c Hc) as Hd.
  unfold symbol_index. cbn [symbol_index_from].
  replace (26 * (-1 + 1) + digit_of c) with (digit_of c) by lia.
  destruct (getQuerySymbol_symbol_index_from s (digit_of c)) as [Hnn E];
    [lia | exact Hs |].
  split; [exact Hnn|].
  rewrite E, getQuerySymbol_digit, letter_digit_of by assumption. reflexivity.
Qed.

(** ** Thresholds *)

Lemma pow26_pos (k : nat) : 0 < 26 ^ Z.of_nat k.
Proof. apply Z.pow_pos_nonneg; lia. Qed.

Lemma pow26_S (k : nat) : 26 ^ Z.of_nat (S k) = 26 * 26 ^ Z.of_nat k.
Proof. rewrite Nat2Z.inj_succ, Z.pow_succ_r by lia. reflexivity. Qed.

Lemma threshold_S (k : nat) : threshold (S k) = threshold k + 26 ^ Z.of_nat (S k).
Proof. reflexivity. Qed.

Lemma pow26_threshold (k : nat) : 26 ^ Z.of_nat (S k) = 25 * threshold k + 26.
Proof.
  induction k as [|k IH]; [reflexivity|].
  rewrite threshold_S, pow26_S. lia.
Qed.

(** Each threshold from the one before: [26 * (t + 1)]. *)
Lemma threshold_next (k : nat) : threshold (S k) = 26 * (threshold k + 1).
Proof. rewrite threshold_S, pow26_threshold. lia. Qed.

Lemma threshold_lt_S (k : nat) : threshold k < threshold (S k).
Proof. rewrite threshold_S. pose proof (pow26_pos (S k)). lia. Qed.

Lemma threshold_le (j k : nat) : (j <= k)%nat -> threshold j <= threshold k.
Proof.
  induction 1 as [|k _ IH]; [lia|]. pose proof (threshold_lt_S k). lia.
Qed.

Lemma threshold_lt (j k : nat) : (j < k)%nat -> threshold j < threshold k.
Proof.
  intros H. pose proof (threshold_le (S j) k H). pose proof (threshold_lt_S j).
  lia.
Qed.

(** The thresholds cut the indices into intervals: an index lies in one
    of them only. *)
Lemma threshold_interval_unique (j k : nat) (n : Z) :
  threshold j <= n < threshold (S j) ->
  threshold k <= n < threshold (S k) ->
  j = k.
Proof.
  intros Hj Hk.
  destruct (Nat.lt_trichotomy j k) as [H|[H|H]]; [|exact H|].
  - pose proof (threshold_le (S j) k H). lia.
  - pose proof (threshold_le (S k) j H). lia.
Qed.

Lemma symbol_index_from_shift (s : string) :
  forall acc : Z,
    symbol_index_from acc s
    = (acc + 1) * 26 ^ Z.of_nat (String.length s) + symbol_index s.
Proof.
  unfold symbol_index.
  induction s as [|c s IH]; intros acc; cbn [symbol_index_from String.length].
  - cbn. lia.
  - rewrite IH, (IH (26 * (-1 + 1) + digit_of c)), pow26_S. lia.
Qed.

(** The symbols of length [k] stand for the indices from
    [threshold k - 26 ^ k] up to [threshold k], the latter excluded. *)
Lemma symbol_index_range (s : string) :
  all_lowercase s = true ->
  threshold (String.length s) - 26 ^ Z.of_nat (String.length s)
  <= symbol_index s < threshold (String.length s).
Proof.
  induction s as [|c s IH]; intros Hs; [cbn; lia|].
  cbn in Hs. apply andb_true_iff in Hs as [Hc Hs].
  pose proof (is_lowercase_digit c Hc) as Hd. specialize (IH Hs).
  unfold symbol_index at 1 2. cbn [symbol_index_from String.length].
  rewrite symbol_index_from_shift, threshold_S, pow26_S.
  pose proof (pow26_pos (String.length s)) as Hp.
  set (p := 26 ^ Z.of_nat (String.length s)) in *.
  set (t := threshold (String.length s)) in *.
  set (x := symbol_index s) in *.
  replace ((26 * (-1 + 1) + digit_of c + 1) * p + x)
    with (digit_of c * p + p + x) by lia.
  assert (0 <= digit_of c * p) by (apply Z.mul_nonneg_nonneg; lia).
  assert (digit_of c * p <= 25 * p) by (apply Z.mul_le_mono_nonneg_r; lia).
  lia.
Qed.

(** The length of a symbol says between which thresholds its index is. *)
Lemma getQuerySymbol_length_interval (n : Z) :
  0 <= n ->
  exists k : nat,
    String.length (getQuerySymbol n) = S k
    /\ threshold k <= n < threshold (S k).
Proof.
  intros Hn.
  pose proof (symbol_index_range _ (getQuerySymbol_lowercase n Hn)) as Hr.
  rewrite symbol_index_getQuerySymbol in Hr by lia.
  destruct (String.length (getQuerySymbol n)) as [|k] eqn:E.
  - cbn in Hr. lia.
  - exists k. split; [reflexivity|]. rewrite threshold_S in Hr |- *. lia.
Qed.

(** ** Spreadsheet-column order *)

Lemma digit_of_compare_lt (c d : ascii) :
  Ascii.compare c d = Lt -> digit_of c < digit_of d.
Proof.
  unfold Ascii.compare, digit_of, nat_of_ascii. rewrite N.compare_lt_iff.
  intros H. rewrite !N_nat_Z. lia.
Qed.

(** Among lowercase strings of one length, alphabetical order is the
    order of the indices. *)
Lemma symbol_index_from_lex (s : string) :
  forall (t : string) (acc : Z),
    String.length s = String.length t ->
    all_lowercase s = true -> all_lowercase t = true ->
    String.compare s t = Lt ->
    symbol_index_from acc s < symbol_index_from acc t.
Proof.
  induction s as [|c s IH]; intros [|d t] acc Hlen Hs Ht Hcmp;
    try discriminate.
  cbn in Hlen, Hs, Ht. injection Hlen as Hlen.
  apply andb_true_iff in Hs as [Hc Hs]. apply andb_true_iff in Ht as [Hd Ht].
  cbn [String.compare] in Hcmp. cbn [symbol_index_from].
  destruct (Ascii.compare c d) eqn:Hcd; try discriminate.
  - apply Ascii.compare_eq_iff in Hcd. subst d. now apply IH.
  - apply digit_of_compare_lt in Hcd.
    rewrite (symbol_index_from_shift s), (symbol_index_from_shift t), <- Hlen.
    pose proof (symbol_index_range s Hs) as Rs.
    pose proof (symbol_index_range t Ht) as Rt. rewrite <- Hlen in Rt.
    pose proof (pow26_pos (String.length s)) as Hp.
    set (p := 26 ^ Z.of_nat (String.length s)) in *.
    set (x := 26 * (acc + 1)) in *.
    assert ((x + digit_of c + 1 + 1) * p <= (x + digit_of d + 1) * p)
      by (apply Z.mul_le_mono_nonneg_r; lia).
    lia.
Qed.

Lemma symbol_index_column_lt (s t : string) :
  all_lowercase s = true -> all_lowercase t = true ->
  column_lt s t -> symbol_index s < symbol_index t.
Proof.
  intros Hs Ht [Hlen|[Hlen Hcmp]].
  - pose proof (symbol_index_range s Hs) as Rs.
    pose proof (symbol_index_range t Ht) as Rt.
    destruct (String.length t) as [|k]; [lia|].
    rewrite threshold_S in Rt.
    pose proof (threshold_le (String.length s) k ltac:(lia)). lia.
  - now apply symbol_index_from_lex.
Qed.

(** Two strings are equal or one is before the other. *)
Lemma column_lt_trichotomy (s t : string) :
  column_lt s t \/ s = t \/ column_lt t s.
Proof.
  unfold column_lt.
  destruct (Nat.lt_trichotomy (String.length s) (String.length t))
    as [H|[H|H]]; [left; left; exact H | | right; right; left; exact H].
  destruct (String.compare s t) eqn:E.
  - apply String.compare_eq_iff in E. right. left. exact E.
  - left. right. now split.
  - right. right. right. split; [now symmetry|].
    rewrite String.compare_antisym, E. reflexivity.
Qed.

Lemma getQuerySymbol_injective (n1 n2 : Z) :
  0 <= n1 -> 0 <= n2 -> getQuerySymbol n1 = getQuerySymbol n2 -> n1 = n2.
Proof.
  intros H1 H2 E. apply (f_equal symbol_index) in E.
  now rewrite !symbol_index_getQuerySymbol in E by lia.
Qed.

Lemma getQuerySymbol_increasing (n1 n2 : Z) :
  0 <= n1 -> n1 < n2 -> column_lt (getQuerySymbol n1) (getQuerySymbol n2).
Proof.
  intros H1 H12.
  destruct (column_lt_trichotomy (getQuerySymbol n1) (getQuerySymbol n2))
    as [H|[H|H]]; [exact H | |].
  - apply getQuerySymbol_injective in H; lia.
  - apply symbol_index_column_lt in H;
      try (apply getQuerySymbol_lowercase; lia).
    rewrite !symbol_index_getQuerySymbol in H by lia. lia.
Qed.

(** ** Lengths *)

Lemma getQuerySymbol_length_le (m n : Z) :
  0 <= m <= n ->
  (String.length (getQuerySymbol m) <= String.length (getQuerySymbol n))%nat.
Proof.
  intros H.
  destruct (getQuerySymbol_length_interval m) as (j & -> & Hj); [lia|].
  destruct (getQuerySymbol_length_interval n) as (k & -> & Hk); [lia|].
  destruct (Nat.le_gt_cases j k) as [Hjk|Hjk]; [lia|].
  pose proof (threshold_le (S k) j Hjk). lia.
Qed.

Lemma getQuerySymbol_length_at_threshold (n : Z) :
  1 <= n -> is_threshold n ->
  String.length (getQuerySymbol n)
  = S (String.length (getQuerySymbol (n - 1))).
Proof.
  intros Hn (q & Hq & ->).
  destruct (getQuerySymbol_length_interval (threshold q)) as (k & -> & Hk);
    [lia|].
  destruct (getQuerySymbol_length_interval (threshold q - 1)) as (j & -> & Hj);
    [lia|].
  pose proof (threshold_lt_S q) as Hlt.
  assert (q = k) as <- by (apply (threshold_interval_unique _ _ (threshold q)); lia).
  destruct q as [|q]; [lia|].
  pose proof (threshold_lt_S q) as Hlt'.
  assert (q = j) as <-
    by (apply (threshold_interval_unique _ _ (threshold (S q) - 1)); lia).
  reflexivity.
Qed.

Lemma getQuerySymbol_length_off_threshold (n : Z) :
  1 <= n -> ~ is_threshold n ->
  String.length (getQuerySymbol n) = String.length (getQuerySymbol (n - 1)).
Proof.
  intros Hn Hnt.
  destruct (getQuerySymbol_length_interval n) as (k & -> & Hk); [lia|].
  destruct (getQuerySymbol_length_interval (n - 1)) as (j & -> & Hj); [lia|].
  assert (threshold k <> n) as Hne.
  { intros E. destruct k as [|k]; [cbn in E; lia|].
    apply Hnt. exists (S k). split; [lia | now symmetry]. }
  assert (k = j) as <-
    by (apply (threshold_interval_unique _ _ (n - 1)); lia).
  reflexivity.
Qed.

(** ** More on [getQuerySymbol] *)

Lemma undefined_is_label : is_label "undefined".
Proof. split; [discriminate | reflexivity]. Qed.

(** X1: outside its domain the function is not injective.  A negative
    index returns "a" when it is a multiple of 26 and "undefined"
    otherwise, and each of the two is the symbol of an index that is
    not negative as well. *)
Theorem getQuerySymbol_negative_collides (index : Z) :
  index < 0 ->
  getQuerySymbol index
  = (if Js.rem index (Js.length indexToChar) =? 0 then "a" else "undefined")
  /\ exists n, 0 <= n /\ getQuerySymbol n = getQuerySymbol index.
Proof.
  intros Hindex. rewrite indexToChar_length.
  pose proof (Z.rem_bound_pos_neg index 26 ltac:(lia) ltac:(lia)) as Hrem.
  destruct (Z.eqb_spec (Js.rem index 26) 0) as [E|E].
  - rewrite (getQuerySymbol_negative_multiple index Hindex E).
    split; [reflexivity|]. exists 0. split; [lia | reflexivity].
  - destruct (getQuerySymbol_negative_remainder index Hindex) as [_ ->];
      [unfold Js.rem in *; lia|].
    split; [reflexivity|].
    exists (symbol_index "undefined").
    apply getQuerySymbol_symbol_index, undefined_is_label.
Qed.

Lemma getQuerySymbol_negative_collides_witness :
  -27 < 0
  /\ getQuerySymbol (-27) = "undefined"
  /\ exists n, 0 <= n /\ getQuerySymbol n = getQuerySymbol (-27).
Proof.
  split; [lia|]. apply (getQuerySymbol_negative_collides (-27)). lia.
Defined.

Lemma pow26_le_threshold (k : nat) : 26 ^ Z.of_nat k <= threshold k + 1.
Proof.
  destruct k as [|k]; [cbn; lia|].
  rewrite threshold_S. pose proof (threshold_le 0 k ltac:(lia)). cbn in H. lia.
Qed.

Lemma letter_0 : letter 0 = "a"%char.
Proof. reflexivity. Qed.





(** ** Splitting a description *)

Lemma split_not_nil (sep : ascii) (s : string) : split sep s <> [].
Proof.
  destruct s as [|c s]; cbn [split]; [discriminate|].
  destruct (Ascii.eqb c sep); [discriminate|].
  destruct (split sep s); discriminate.
Qed.

(** Joining the pieces with the separator gives the string back. *)
Lemma concat_split (sep : ascii) (s : string) :
  String.concat (String sep "") (split sep s) = s.
Proof.
  induction s as [|c s IH]; [reflexivity|].
  cbn [split]. pose proof (split_not_nil sep s) as Hne.
  destruct (Ascii.eqb_spec c sep) as [->|Hc].
  - destruct (split sep s) as [|p ps]; [contradiction|].
    cbn [String.concat append] in *. now rewrite IH.
  - destruct (split sep s) as [|p ps]; [contradiction|].
    destruct ps as [|q qs]; cbn [String.concat append] in *; now rewrite IH.
Qed.

Lemma split_pieces_no_sep (sep : ascii) (s : string) :
  Forall (fun piece => has_char sep piece = false) (split sep s).
Proof.
  induction s as [|c s IH]; [repeat constructor|].
  cbn [split].
  destruct (Ascii.eqb c sep) eqn:Hc.
  - constructor; [reflexivity | exact IH].
  - destruct (split sep s) as [|p ps]; [repeat constructor; cbn; now rewrite Hc|].
    inversion IH as [|? ? Hp Hps]; subst.
    constructor; [cbn; now rewrite Hc, Hp | exact Hps].
Qed.

Lemma has_char_append (c : ascii) (s t : string) :
  has_char c (s ++ t) = has_char c s || has_char c t.
Proof.
  induction s as [|a s IH]; cbn; [reflexivity|]. now rewrite IH, orb_assoc.
Qed.

Lemma pop_snoc (a : list string) :
  a <> [] -> exists init e, a = (init ++ [e])%list /\ pop a = Some e.
Proof.
  induction a as [|x a IH]; intros Hne; [contradiction|].
  destruct a as [|y a].
  - exists [], x. split; reflexivity.
  - destruct IH as (init & e & E & Hpop); [discriminate|].
    exists (x :: init), e. split; [cbn; now rewrite E | exact Hpop].
Qed.

Lemma concat_snoc (sep : string) (init : list string) (e : string) :
  init <> [] ->
  String.concat sep (init ++ [e]) = String.concat sep init ++ sep ++ e.
Proof.
  induction init as [|x init IH]; intros Hne; [contradiction|].
  destruct init as [|y init]; [reflexivity|].
  change (String.concat sep ((x :: y :: init) ++ [e])%list)
    with (x ++ sep ++ String.concat sep ((y :: init) ++ [e])%list).
  rewrite IH by discriminate.
  change (String.concat sep (x :: y :: init))
    with (x ++ sep ++ String.concat sep (y :: init)).
  now rewrite !append_assoc.
Qed.

(** X5: the extension read off a description is its part after the last
    dot, and has no dot in it.  A description without a dot is its own
    extension, whole. *)
Theorem fileExtension_after_last_dot (description : string) :
  has_char "." (fileExtension (Some description)) = false
  /\ if has_char "." description
     then exists stem : string,
            description = stem ++ "." ++ fileExtension (Some description)
     else fileExtension (Some description) = description.
Proof.
  unfold fileExtension.
  destruct (pop_snoc _ (split_not_nil "." description)) as (init & e & E & ->).
  cbn [or_empty].
  pose proof (split_pieces_no_sep "." description) as Hno.
  pose proof (concat_split "." description) as Hcat.
  rewrite E in Hno, Hcat.
  apply Forall_app in Hno as [Hinit He]. apply Forall_inv in He as Hdot.
  cbn beta in Hdot. split; [exact Hdot|].
  destruct init as [|x init].
  - cbn in Hcat. subst e. now rewrite Hdot.
  - rewrite concat_snoc in Hcat by discriminate.
    assert (has_char "." description = true) as ->.
    { rewrite <- Hcat, !has_char_append. cbn. apply orb_true_r. }
    eexists. symmetry. exact Hcat.
Qed.

(** ** The row the page shows *)

Lemma strict_eq_true (a b : option string) : strict_eq a b = true <-> a = b.
Proof.
  destruct a as [x|], b as [y|]; cbn; try (split; congruence).
  rewrite String.eqb_eq. split; congruence.
Qed.

Lemma strict_eq_false (a b : option string) : strict_eq a b = false <-> a <> b.
Proof.
  rewrite <- strict_eq_true. destruct (strict_eq a b); split; congruence.
Qed.

Lemma truthy_Some (s : string) : s <> "" -> truthy (Some s) = true.
Proof.
  intros H. cbn. apply negb_true_iff, String.eqb_neq, H.
Qed.

(** [find] returns the first element that passes the test. *)
Lemma find_first (A : Type) (test : A -> bool) (l : list A) :
  match find test l with
  | Some x =>
      exists before after,
        l = (before ++ x :: after)%list /\ test x = true
        /\ forall y, In y before -> test y = false
  | None => forall y, In y l -> test y = false
  end.
Proof.
  induction l as [|a l IH]; cbn [find]; [intros y []|].
  destruct (test a) eqn:Ha.
  - exists [], l. split; [reflexivity|]. split; [exact Ha | intros y []].
  - destruct (find test l) as [x|].
    + destruct IH as (before & after & -> & Hx & Hbefore).
      exists (a :: before), after. split; [reflexivity|]. split; [exact Hx|].
      intros y [<-|Hy]; [exact Ha | now apply Hbefore].
    + intros y [<-|Hy]; [exact Ha | now apply IH].
Qed.

(** X6: with a span operation selected, the page shows the first row of
    that operation, and the empty object exactly when no row has it;
    never a row of another operation. *)
Theorem spanMetrics_selected
  (number : Type) (f : filters) (data : list (row number)) (selected : string) :
  filter_span_op f = Some selected -> selected <> "" ->
  (spanMetrics f data = empty_row
   /\ forall item, In item data -> span_op item <> Some selected)
  \/ (exists before after,
        data = (before ++ spanMetrics f data :: after)%list
        /\ span_op (spanMetrics f data) = Some selected
        /\ forall item, In item before -> span_op item <> Some selected).
Proof.
  intros Hf Hne. unfold spanMetrics. rewrite Hf, truthy_Some by exact Hne.
  pose proof (find_first _ (fun item : row number =>
                              strict_eq (span_op item) (Some selected)) data) as H.
  destruct (find _ data) as [item|].
  - right. destruct H as (before & after & -> & Hitem & Hbefore).
    exists before, after. split; [reflexivity|].
    split; [now apply strict_eq_true|].
    intros y Hy. now apply strict_eq_false, Hbefore.
  - left. split; [reflexivity|].
    intros y Hy. now apply strict_eq_false, H.
Qed.

Lemma spanMetrics_selected_witness :
  (exists before after,
     [Row Z (Some "resource.css") (Some "a.css") (Some 1) None None None None
          None None None;
      Row Z (Some "resource.img") (Some "b.png") (Some 2) None None None None
          None None None]
     = (before
        ++ spanMetrics (Filters (Some "resource.img") None)
             [Row Z (Some "resource.css") (Some "a.css") (Some 1) None None
                  None None None None None;
              Row Z (Some "resource.img") (Some "b.png") (Some 2) None None
                  None None None None None]
        :: after)%list)
  /\ spanMetrics (Filters (Some "resource.js") None)
       [Row Z (Some "resource.css") (Some "a.css") (Some 1) None None None
            None None None None]
     = empty_row.
Proof.
  split.
  - destruct (spanMetrics_selected Z (Filters (Some "resource.img") None)
                [Row Z (Some "resource.css") (Some "a.css") (Some 1) None None
                     None None None None None;
                 Row Z (Some "resource.img") (Some "b.png") (Some 2) None None
                     None None None None None]
                "resource.img" eq_refl ltac:(discriminate))
      as [[_ Hnone]|(before & after & E & _)].
    + exfalso. apply (Hnone _ (or_intror (or_introl eq_refl))). reflexivity.
    + exists before, after. exact E.
  - destruct (spanMetrics_selected Z (Filters (Some "resource.js") None)
                [Row Z (Some "resource.css") (Some "a.css") (Some 1) None None
                     None None None None None]
                "resource.js" eq_refl ltac:(discriminate))
      as [[E _]|(before & after & _ & Hop & _)]; [exact E|].
    vm_compute in Hop. discriminate.
Defined.

(** ** Sets of span operations *)

Lemma existsb_strict_eq (x : option string) (set : list (option string)) :
  existsb (strict_eq x) set = true <-> In x set.
Proof.
  rewrite existsb_exists. split.
  - intros (y & Hy & E). apply strict_eq_true in E. now subst.
  - intros H. exists x. split; [exact H | now apply strict_eq_true].
Qed.

(** Adding values never removes or reorders members. *)
Lemma fold_set_add_prefix (values : list (option string)) :
  forall set, exists added, fold_left set_add values set = (set ++ added)%list.
Proof.
  induction values as [|x values IH]; intros set; cbn [fold_left].
  - exists []. now rewrite app_nil_r.
  - destruct (IH (set_add set x)) as [added ->]. unfold set_add.
    destruct (existsb (strict_eq x) set); [now exists added|].
    exists (x :: added). now rewrite <- app_assoc.
Qed.

Lemma fold_set_add_members (values : list (option string)) :
  forall set,
    (forall x, In x values -> In x set) -> fold_left set_add values set = set.
Proof.
  induction values as [|x values IH]; intros set Hall; [reflexivity|].
  cbn [fold_left]. unfold set_add at 2.
  destruct (existsb (strict_eq x) set) eqn:E.
  - apply IH. intros y Hy. apply Hall. now right.
  - assert (In x set) as Hx by (apply Hall; now left).
    apply existsb_strict_eq in Hx. congruence.
Qed.

Lemma fold_set_add_grows (values : list (option string)) :
  forall set x,
    In x values -> ~ In x set ->
    (List.length set < List.length (fold_left set_add values set))%nat.
Proof.
  induction values as [|y values IH]; intros set x Hx Hnot; [destruct Hx|].
  cbn [fold_left]. unfold set_add at 2.
  destruct (existsb (strict_eq y) set) eqn:E.
  - destruct Hx as [->|Hx]; [|now apply (IH set x)].
    apply existsb_strict_eq in E. contradiction.
  - destruct (fold_set_add_prefix values (set ++ [y])) as [added ->].
    rewrite !length_app. cbn. lia.
Qed.

(** A set built from a list has one member exactly when the list is not
    empty and all its values are the first one. *)
Lemma new_Set_size_1 (x : option string) (values : list (option string)) :
  (List.length (new_Set (x :: values)) =? 1)%nat
  = forallb (fun y => strict_eq y x) values.
Proof.
  unfold new_Set. cbn [fold_left]. change (set_add [] x) with [x].
  destruct (forallb (fun y => strict_eq y x) values) eqn:E.
  - rewrite fold_set_add_members; [reflexivity|].
    intros y Hy. rewrite forallb_forall in E.
    left. symmetry. now apply strict_eq_true, E.
  - apply Nat.eqb_neq. intros Hlen.
    assert (exists y, In y values /\ strict_eq y x = false) as (y & Hy & Hne).
    { clear Hlen. induction values as [|z values IH]; [discriminate|].
      cbn in E. destruct (strict_eq z x) eqn:Ez.
      - destruct (IH E) as (y & Hy & Hne). exists y. split; [now right | exact Hne].
      - exists z. split; [now left | exact Ez]. }
    apply strict_eq_false in Hne.
    assert (~ In y [x]) as Hnot by (intros [<-|[]]; now apply Hne).
    pose proof (fold_set_add_grows values [x] y Hy Hnot) as Hgrow.
    cbn in Hgrow. lia.
Qed.

(** ** Whether the resource is an image *)

Section IsImage.

Variable number : Type.
Variable IMAGE : string.
Variable IMAGE_FILE_EXTENSIONS : list string.

(** Under a filter the row shown has the selected operation or none. *)
Lemma spanMetrics_filter_op
  (f : filters) (data : list (row number)) (selected : string) :
  filter_span_op f = Some selected -> selected <> "" ->
  span_op (spanMetrics f data) = Some selected
  \/ span_op (spanMetrics f data) = None.
Proof.
  intros Hf Hne. unfold spanMetrics. rewrite Hf, truthy_Some by exact Hne.
  pose proof (find_first _ (fun item : row number =>
                              strict_eq (span_op item) (Some selected)) data) as H.
  destruct (find _ data) as [item|]; [|now right].
  destruct H as (_ & _ & _ & Hitem & _). left. now apply strict_eq_true.
Qed.

Lemma spanMetrics_no_filter (f : filters) (data : list (row number)) :
  truthy (filter_span_op f) = false ->
  spanMetrics f data
  = match data with
    | item :: _ => item
    | [] => empty_row
    end.
Proof.
  intros Hf. unfold spanMetrics. rewrite Hf. now destruct data.
Qed.

Lemma uniqueSpanOps_size_1 (data : list (row number)) :
  (List.length (uniqueSpanOps data) =? 1)%nat
  = match data with
    | item :: rest =>
        forallb (fun other => strict_eq (span_op other) (span_op item)) rest
    | [] => false
    end.
Proof.
  destruct data as [|item rest]; [reflexivity|].
  unfold uniqueSpanOps. cbn [map]. rewrite new_Set_size_1.
  induction rest as [|other rest IH]; [reflexivity|].
  cbn. now rewrite IH.
Qed.

End IsImage.

(** X7: with a span operation selected, the resource is an image when the
    selected operation is the image operation or the extension of the
    row shown is an image extension; the count of distinct operations
    in the data decides nothing then. *)
Theorem isImage_under_filter
  (number : Type) (IMAGE : string) (IMAGE_FILE_EXTENSIONS : list string)
  (f : filters) (data : list (row number)) (selected : string) :
  filter_span_op f = Some selected -> selected <> "" ->
  isImage IMAGE IMAGE_FILE_EXTENSIONS f data
  = (selected =? IMAGE)%string
    || existsb
         (String.eqb (fileExtension (span_description (spanMetrics f data))))
         IMAGE_FILE_EXTENSIONS.
Proof.
  intros Hf Hne. unfold isImage. rewrite Hf at 1. cbn [strict_eq].
  destruct (String.eqb_spec selected IMAGE) as [E|E]; [reflexivity|].
  assert (strict_eq (span_op (spanMetrics f data)) (Some IMAGE) = false) as ->.
  { apply strict_eq_false.
    destruct (spanMetrics_filter_op number f data selected Hf Hne) as [->| ->];
      congruence. }
  now rewrite andb_false_r, orb_false_r.
Qed.

Lemma isImage_under_filter_witness :
  isImage "resource.img" ["jpg"; "png"] (Filters (Some "resource.css") None)
    [Row Z (Some "resource.img") (Some "a.png") None None None None None None
         None None;
     Row Z (Some "resource.css") (Some "b.css") None None None None None None
         None None]
  = false.
Proof.
  rewrite (isImage_under_filter Z "resource.img" ["jpg"; "png"]
             (Filters (Some "resource.css") None) _ "resource.css" eq_refl
             ltac:(discriminate)).
  reflexivity.
Defined.

(** X8: without a selected operation the first row is shown, and the
    resource is an image when that row's extension is an image
    extension or every row of the data has the image operation. *)
Theorem isImage_without_filter
  (number : Type) (IMAGE : string) (IMAGE_FILE_EXTENSIONS : list string)
  (f : filters) (data : list (row number)) :
  truthy (filter_span_op f) = false -> IMAGE <> "" ->
  isImage IMAGE IMAGE_FILE_EXTENSIONS f data
  = match data with
    | [] => existsb (String.eqb "") IMAGE_FILE_EXTENSIONS
    | item :: _ =>
        existsb (String.eqb (fileExtension (span_description item)))
          IMAGE_FILE_EXTENSIONS
        || forallb (fun other => strict_eq (span_op other) (Some IMAGE)) data
    end.
Proof.
  intros Hf Himg. unfold isImage.
  assert (strict_eq (filter_span_op f) (Some IMAGE) = false) as ->.
  { apply strict_eq_false. intros E. rewrite E in Hf. cbn in Hf.
    apply negb_false_iff, String.eqb_eq in Hf. contradiction. }
  rewrite spanMetrics_no_filter, uniqueSpanOps_size_1 by exact Hf.
  destruct data as [|item rest]; cbn [orb]; [cbn; now rewrite orb_false_r|].
  f_equal. cbn [forallb].
  destruct (strict_eq (span_op item) (Some IMAGE)) eqn:E.
  - apply strict_eq_true in E. rewrite E. now rewrite andb_true_r.
  - now rewrite andb_false_r.
Qed.

Lemma isImage_without_filter_witness :
  truthy (filter_span_op (Filters (Some "") None)) = false
  /\ isImage "resource.img" ["jpg"; "png"] (Filters (Some "") None)
       [Row Z (Some "resource.img") (Some "/pixel") None None None None None
            None None None;
        Row Z (Some "resource.img") (Some "/logo") None None None None None
            None None None]
     = true.
Proof.
  split; [reflexivity|].
  rewrite (isImage_without_filter Z "resource.img" ["jpg"; "png"]
             (Filters (Some "") None) _ eq_refl ltac:(discriminate)).
  reflexivity.
Defined.

(** ** The page *)

(** X9: while the query has no rows the page has no title, and it shows
    the sample images, without a project, exactly when the image
    operation is selected in the filter; the empty extension is not
    an image extension. *)
Theorem ResourceSummary_no_data
  (number param : Type) (IMAGE : string) (IMAGE_FILE_EXTENSIONS : list string)
  (groupId : param) (f : filters) (loading : bool) :
  ~ In "" IMAGE_FILE_EXTENSIONS ->
  title (ResourceSummary (number := number) IMAGE IMAGE_FILE_EXTENSIONS
           groupId f [] loading) = None
  /\ isImage (number := number) IMAGE IMAGE_FILE_EXTENSIONS f []
     = strict_eq (filter_span_op f) (Some IMAGE)
  /\ sampleImages (ResourceSummary (number := number) IMAGE
                     IMAGE_FILE_EXTENSIONS groupId f [] loading)
     = if strict_eq (filter_span_op f) (Some IMAGE)
       then Some (SampleImages number param groupId None)
       else None.
Proof.
  intros Hext.
  assert (spanMetrics (number := number) f [] = empty_row) as Hrow
    by (unfold spanMetrics; now destruct (truthy (filter_span_op f))).
  assert (existsb (String.eqb "") IMAGE_FILE_EXTENSIONS = false) as Hnone.
  { destruct (existsb _ IMAGE_FILE_EXTENSIONS) eqn:E; [|reflexivity].
    apply existsb_exists in E as (x & Hx & E).
    apply String.eqb_eq in E. now subst. }
  assert (isImage (number := number) IMAGE IMAGE_FILE_EXTENSIONS f []
          = strict_eq (filter_span_op f) (Some IMAGE)) as Himage.
  { unfold isImage. rewrite Hrow.
    change (fileExtension (span_description (@empty_row number))) with "".
    rewrite Hnone. cbn. now rewrite !orb_false_r. }
  unfold ResourceSummary. cbn [title sampleImages]. rewrite Himage, Hrow.
  split; [reflexivity|]. split; reflexivity.
Qed.

Lemma ResourceSummary_no_data_witness :
  ~ In "" ["jpg"; "png"]
  /\ title (ResourceSummary (number := Z) "resource.img" ["jpg"; "png"]
              "group" (Filters None None) [] true) = None
  /\ sampleImages (ResourceSummary (number := Z) "resource.img" ["jpg"; "png"]
                     "group" (Filters (Some "resource.img") None) [] true)
     = Some (SampleImages Z string "group" None).
Proof.
  assert (~ In "" ["jpg"; "png"]) as Hext
    by (intros [H|[H|[]]]; discriminate).
  split; [exact Hext|]. split.
  - apply (ResourceSummary_no_data Z string "resource.img" ["jpg"; "png"]
             "group" (Filters None None) true Hext).
  - apply (ResourceSummary_no_data Z string "resource.img" ["jpg"; "png"]
             "group" (Filters (Some "resource.img") None) true Hext).
Defined.

Lemma find_first_passing (A : Type) (test : A -> bool) (before after : list A) (x : A) :
  test x = true -> (forall y, In y before -> test y = false) ->
  find test (before ++ x :: after) = Some x.
Proof.
  intros Hx. induction before as [|b before IH]; intros Hbefore; cbn.
  - now rewrite Hx.
  - rewrite (Hbefore b) by now left.
    apply IH. intros y Hy. apply Hbefore. now right.
Qed.

(** X10: with a span operation selected, the title and the image decision
    are those of the first row of that operation, wherever it stands
    in the data, while the sample images are given the project of the
    very first row of the data. *)
Theorem ResourceSummary_selected_row
  (number param : Type) (IMAGE : string) (IMAGE_FILE_EXTENSIONS : list string)
  (groupId : param) (f : filters) (selected : string)
  (before after : list (row number)) (item : row number) (loading : bool) :
  filter_span_op f = Some selected -> selected <> "" ->
  span_op item = Some selected ->
  (forall other, In other before -> span_op other <> Some selected) ->
  title (ResourceSummary IMAGE IMAGE_FILE_EXTENSIONS groupId f
           (before ++ item :: after) loading)
  = span_description item
  /\ sampleImages (ResourceSummary IMAGE IMAGE_FILE_EXTENSIONS groupId f
                     (before ++ item :: after) loading)
     = if (selected =? IMAGE)%string
          || existsb (String.eqb (fileExtension (span_description item)))
               IMAGE_FILE_EXTENSIONS
       then Some (SampleImages number param groupId
                    (project_id (hd item before)))
       else None.
Proof.
  intros Hf Hne Hitem Hbefore.
  assert (spanMetrics f (before ++ item :: after) = item) as Hrow.
  { unfold spanMetrics. rewrite Hf, truthy_Some by exact Hne.
    rewrite find_first_passing; [reflexivity | now apply strict_eq_true |].
    intros y Hy. now apply strict_eq_false, Hbefore. }
  unfold ResourceSummary. cbn [title sampleImages].
  unfold isImage. rewrite Hrow, Hf, Hitem. cbn [strict_eq].
  split; [reflexivity|].
  replace (hd_error (before ++ item :: after))
    with (Some (hd item before)) by now destruct before.
  destruct (selected =? IMAGE)%string; [reflexivity|].
  now rewrite andb_false_r, orb_false_r.
Qed.

Lemma ResourceSummary_selected_row_witness :
  title (ResourceSummary "resource.img" ["jpg"; "png"] "group"
           (Filters (Some "resource.img") None)
           ([Row Z (Some "resource.css") (Some "a.css") (Some 1) None None
                 None None None None None]
            ++ Row Z (Some "resource.img") (Some "b.png") (Some 2) None None
                 None None None None None :: [])
           false)
  = Some "b.png"
  /\ sampleImages (ResourceSummary "resource.img" ["jpg"; "png"] "group"
                     (Filters (Some "resource.img") None)
                     ([Row Z (Some "resource.css") (Some "a.css") (Some 1) None
                           None None None None None None]
                      ++ Row Z (Some "resource.img") (Some "b.png") (Some 2)
                           None None None None None None None :: [])
                     false)
     = Some (SampleImages Z string "group" (Some 1)).
Proof.
  apply (ResourceSummary_selected_row Z string "resource.img" ["jpg"; "png"]
           "group" (Filters (Some "resource.img") None) "resource.img"
           [Row Z (Some "resource.css") (Some "a.css") (Some 1) None None None
                None None None None]
           [] (Row Z (Some "resource.img") (Some "b.png") (Some 2) None None
                   None None None None None)
           false eq_refl ltac:(discriminate) eq_refl).
  intros other [<-|[]]. discriminate.
Defined.

(** * The function on doubles *)

(** ** Rounding *)

(** On samples of every magnitude, positive and negative, the rounded
    quotient by 26 and the rounded difference with 1 are those of the
    Standard Library's binary64. *)
Example Binary64_agrees_with_SpecFloat :
  forallb
    (fun a =>
       match SpecFloat64.floor_div a 26, SpecFloat64.floor_div (- a) 26,
             SpecFloat64.sub a 1 with
       | Some q, Some q', Some d =>
           (q =? Binary64.floor_div a 26)
           && (q' =? Binary64.floor_div (- a) 26)
           && (d =? Binary64.sub a 1)
       | _, _, _ => false
       end)
    SpecFloat64.samples
  = true.
Proof. vm_compute. reflexivity. Qed.

Lemma pow2_pos (e : Z) : 0 <= e -> 0 < 2 ^ e.
Proof. intros H. apply Z.pow_pos_nonneg; lia. Qed.

Lemma ulp_exponent_lower (p q : Z) :
  0 < p -> 0 < q ->
  2 ^ 52 * (q * 2 ^ Z.max 0 (Binary64.ulp_exponent p q))
  <= p * 2 ^ Z.max 0 (- Binary64.ulp_exponent p q).
Proof.
  intros Hp Hq. unfold Binary64.ulp_exponent, Binary64.binade.
  set (s := Z.log2 q + 1).
  assert (0 <= Z.log2 q) as Hlq by apply Z.log2_nonneg.
  assert (0 < s) as Hs by (unfold s; lia).
  assert (q < 2 ^ s) as Hqs by (unfold s; apply Z.log2_spec; lia).
  pose proof (pow2_pos s ltac:(lia)) as Hps.
  set (n := p * 2 ^ s / q).
  assert (1 <= n) as Hn.
  { unfold n. apply Z.div_le_lower_bound; [lia|]. nia. }
  assert (n * q <= p * 2 ^ s) as Hnq.
  { unfold n. rewrite Z.mul_comm. apply Z.mul_div_le. lia. }
  destruct (Z.log2_spec n ltac:(lia)) as [HL _].
  assert (0 <= Z.log2 n) as HLn by apply Z.log2_nonneg.
  set (L := Z.log2 n) in *.
  assert (2 ^ L * q <= p * 2 ^ s) as H by nia.
  destruct (Z.le_gt_cases 0 (L - s - 52)) as [He|He].
  - rewrite Z.max_r by lia. rewrite Z.max_l by lia.
    replace L with ((L - s - 52) + 52 + s) in H by lia.
    rewrite !Z.pow_add_r in H by lia.
    pose proof (pow2_pos (L - s - 52) He).
    change (2 ^ 0) with 1. rewrite Z.mul_1_r.
    apply (Z.mul_le_mono_pos_r _ _ (2 ^ s)); [exact Hps|]. lia.
  - rewrite Z.max_l by lia. rewrite Z.max_r by lia.
    change (2 ^ 0) with 1. rewrite Z.mul_1_r.
    replace (- (L - s - 52)) with (s + 52 - L) by lia.
    pose proof (pow2_pos L HLn) as HpL.
    apply (Z.mul_le_mono_pos_r _ _ (2 ^ L)); [exact HpL|].
    replace (p * 2 ^ (s + 52 - L) * 2 ^ L) with (p * 2 ^ s * 2 ^ 52).
    + nia.
    + rewrite <- !Z.mul_assoc. f_equal. rewrite <- !Z.pow_add_r by lia.
      f_equal. lia.
Qed.

(** Rounding a quotient to the nearest integer, ties to even. *)
Lemma round_mantissa_spec (p q e : Z) :
  0 <= p -> 0 < q ->
  let num := p * 2 ^ Z.max 0 (- e) in
  let den := q * 2 ^ Z.max 0 e in
  let m := Binary64.round_mantissa p q e in
  num / den <= m <= num / den + 1
  /\ - den <= 2 * (m * den - num) <= den
  /\ (num mod den = 0 -> m = num / den).
Proof.
  intros Hp Hq num den m.
  assert (0 < den) as Hden.
  { unfold den. pose proof (pow2_pos (Z.max 0 e) ltac:(lia)). nia. }
  pose proof (Z.div_mod num den ltac:(lia)) as Hdm.
  pose proof (Z.mod_pos_bound num den Hden) as Hr.
  unfold m, Binary64.round_mantissa. fold num den.
  destruct (Z.compare_spec (2 * (num mod den)) den) as [E|E|E].
  - destruct (Z.even (num / den)); repeat split; nia.
  - repeat split; nia.
  - repeat split; nia.
Qed.

Lemma floor_div_pos_eq (a b : Z) :
  0 < a ->
  Binary64.floor_div a b
  = Binary64.floor_scaled
      (Binary64.round_mantissa a b (Binary64.ulp_exponent a b))
      (Binary64.ulp_exponent a b).
Proof. destruct a; try lia. reflexivity. Qed.

Lemma floor_div_neg_eq (a b : Z) :
  a < 0 ->
  Binary64.floor_div a b
  = Binary64.floor_scaled
      (- Binary64.round_mantissa (- a) b (Binary64.ulp_exponent (- a) b))
      (Binary64.ulp_exponent (- a) b).
Proof. destruct a; try lia. reflexivity. Qed.

(** On the safe integers the rounded quotient by 26 has the floor of the
    exact one. *)
Lemma floor_div_26_safe (a : Z) :
  0 <= a < 2 ^ 53 -> Binary64.floor_div a 26 = a / 26.
Proof.
  intros Ha. destruct (Z.eq_dec a 0) as [->|Hne]; [reflexivity|].
  rewrite floor_div_pos_eq by lia.
  pose proof (ulp_exponent_lower a 26 ltac:(lia) ltac:(lia)) as Hlow.
  pose proof (round_mantissa_spec a 26 (Binary64.ulp_exponent a 26) ltac:(lia) ltac:(lia))
    as Hm. cbv zeta in Hm.
  set (e := Binary64.ulp_exponent a 26) in *.
  set (m := Binary64.round_mantissa a 26 e) in *.
  destruct (Z.le_gt_cases 0 e) as [He|He].
  { rewrite (Z.max_r 0 e), (Z.max_l 0 (- e)) in Hlow by lia.
    pose proof (pow2_pos e He). change (2 ^ 0) with 1 in Hlow.
    change (2 ^ 52) with 4503599627370496 in Hlow.
    change (2 ^ 53) with 9007199254740992 in Ha.
    exfalso. clear Hm. set (E := 2 ^ e) in *. lia. }
  rewrite (Z.max_l 0 e), (Z.max_r 0 (- e)) in Hlow, Hm by lia.
  change (2 ^ 0) with 1 in Hlow, Hm. rewrite Z.mul_1_r in Hlow, Hm.
  unfold Binary64.floor_scaled. destruct (Z.leb_spec 0 e); [lia|].
  pose proof (pow2_pos (- e) ltac:(lia)) as HK.
  set (K := 2 ^ (- e)) in *.
  assert (16 <= K) as HK16.
  { destruct (Z.le_gt_cases 4 (- e)) as [H4|H4].
    - unfold K. change 16 with (2 ^ 4). apply Z.pow_le_mono_r; lia.
    - assert (K <= 2 ^ 3) by (unfold K; apply Z.pow_le_mono_r; lia).
      change (2 ^ 3) with 8 in *.
      change (2 ^ 52) with 4503599627370496 in Hlow.
      change (2 ^ 53) with 9007199254740992 in Ha.
      exfalso. clear Hm. assert (a * K <= a * 8) by nia. lia. }
  destruct Hm as (_ & Herr & Hexact).
  pose proof (Z.div_mod a 26 ltac:(lia)) as Hdm.
  pose proof (Z.mod_pos_bound a 26 ltac:(lia)) as Hr.
  set (Q := a / 26) in *. set (R := a mod 26) in *.
  symmetry. apply Z.div_unique_pos with (r := m - Q * K); [|lia].
  destruct (Z.eq_dec R 0) as [HR|HR].
  - assert ((a * K) mod 26 = 0) as Hz.
    { replace (a * K) with (Q * K * 26) by nia. apply Z.mod_mul. lia. }
    rewrite (Hexact Hz).
    replace (a * K) with (Q * K * 26) by nia. rewrite Z.div_mul by lia. lia.
  - assert (K <= R * K) by nia. assert (R * K <= 25 * K) by nia.
    assert (a * K = 26 * (Q * K) + R * K) by nia.
    lia.
Qed.

(** A rounded quotient of positive numbers is not negative and at most
    twice the exact one. *)
Lemma floor_div_pos_bounds (a b : Z) :
  0 < a -> 0 < b -> 0 <= Binary64.floor_div a b /\ Binary64.floor_div a b * b <= 2 * a.
Proof.
  intros Ha Hb. rewrite floor_div_pos_eq by lia.
  pose proof (ulp_exponent_lower a b Ha Hb) as Hlow.
  pose proof (round_mantissa_spec a b (Binary64.ulp_exponent a b) ltac:(lia) Hb) as Hm.
  cbv zeta in Hm.
  set (e := Binary64.ulp_exponent a b) in *.
  set (m := Binary64.round_mantissa a b e) in *.
  set (num := a * 2 ^ Z.max 0 (- e)) in *.
  set (den := b * 2 ^ Z.max 0 e) in *.
  pose proof (pow2_pos (Z.max 0 e) ltac:(lia)) as Hpe.
  pose proof (pow2_pos (Z.max 0 (- e)) ltac:(lia)) as Hpe'.
  assert (0 < den) as Hden by (unfold den; nia).
  assert (den <= num) as Hdn.
  { change (2 ^ 52) with 4503599627370496 in Hlow. lia. }
  destruct Hm as (Hqt & Herr & _).
  assert (1 <= num / den) by (apply Z.div_le_lower_bound; lia).
  assert (1 <= m) as Hm1 by lia.
  assert (m * den <= 2 * num) as Hmd by lia.
  unfold Binary64.floor_scaled. destruct (Z.leb_spec 0 e) as [He|He].
  - unfold num, den in Hmd. rewrite (Z.max_r 0 e), (Z.max_l 0 (- e)) in Hmd by lia.
    change (2 ^ 0) with 1 in Hmd. rewrite (Z.max_r 0 e) in Hpe by lia.
    split; nia.
  - unfold num, den in Hmd. rewrite (Z.max_l 0 e), (Z.max_r 0 (- e)) in Hmd by lia.
    change (2 ^ 0) with 1 in Hmd. rewrite (Z.max_r 0 (- e)) in Hpe' by lia.
    set (K := 2 ^ (- e)) in *.
    pose proof (Z.mul_div_le m K Hpe') as Hfl.
    assert (0 <= m / K) by (apply Z.div_pos; lia).
    split; [lia|].
    apply (Z.mul_le_mono_pos_r _ _ K); [exact Hpe'|]. nia.
Qed.

(** A rounded quotient of a negative number by a positive one is negative. *)
Lemma floor_div_neg (a b : Z) : a < 0 -> 0 < b -> Binary64.floor_div a b <= -1.
Proof.
  intros Ha Hb. rewrite floor_div_neg_eq by lia.
  pose proof (ulp_exponent_lower (- a) b ltac:(lia) Hb) as Hlow.
  pose proof (round_mantissa_spec (- a) b (Binary64.ulp_exponent (- a) b) ltac:(lia) Hb)
    as Hm.
  cbv zeta in Hm.
  set (e := Binary64.ulp_exponent (- a) b) in *.
  set (m := Binary64.round_mantissa (- a) b e) in *.
  set (num := - a * 2 ^ Z.max 0 (- e)) in *.
  set (den := b * 2 ^ Z.max 0 e) in *.
  pose proof (pow2_pos (Z.max 0 e) ltac:(lia)) as Hpe.
  assert (0 < den) as Hden by (unfold den; nia).
  assert (den <= num) as Hdn.
  { change (2 ^ 52) with 4503599627370496 in Hlow. lia. }
  destruct Hm as (Hqt & _ & _).
  assert (1 <= num / den) by (apply Z.div_le_lower_bound; lia).
  assert (1 <= m) as Hm1 by lia.
  unfold Binary64.floor_scaled. destruct (Z.leb_spec 0 e) as [He|He].
  - pose proof (pow2_pos e He). nia.
  - pose proof (pow2_pos (- e) ltac:(lia)) as HK.
    assert (- m / 2 ^ (- e) < 0); [|lia].
    apply Z.div_lt_upper_bound; lia.
Qed.

(** Integers of magnitude below [2^53] are doubles: rounding leaves
    them as they are. *)
Lemma round_exact (z : Z) : - 2 ^ 53 < z < 2 ^ 53 -> Binary64.round z = z.
Proof.
  intros Hz. unfold Binary64.round.
  destruct (Z.lt_trichotomy z 0) as [Hneg|[->|Hpos]]; [|reflexivity|].
  - rewrite floor_div_neg_eq by lia.
    pose proof (ulp_exponent_lower (- z) 1 ltac:(lia) ltac:(lia)) as Hlow.
    pose proof (round_mantissa_spec (- z) 1 (Binary64.ulp_exponent (- z) 1) ltac:(lia)
                  ltac:(lia)) as Hm.
    cbv zeta in Hm.
    set (e := Binary64.ulp_exponent (- z) 1) in *.
    set (m := Binary64.round_mantissa (- z) 1 e) in *.
    change (2 ^ 52) with 4503599627370496 in Hlow.
    change (2 ^ 53) with 9007199254740992 in Hz.
    destruct (Z.lt_ge_cases 0 e) as [He|He].
    { exfalso. rewrite (Z.max_r 0 e), (Z.max_l 0 (- e)) in Hlow by lia.
      assert (2 ^ 1 <= 2 ^ e) by (apply Z.pow_le_mono_r; lia).
      change (2 ^ 1) with 2 in *. change (2 ^ 0) with 1 in Hlow. lia. }
    rewrite (Z.max_l 0 e), (Z.max_r 0 (- e)) in Hm by lia.
    change (2 ^ 0) with 1 in Hm. rewrite !Z.mul_1_r, Z.div_1_r in Hm.
    destruct Hm as (_ & _ & Hexact). rewrite Hexact by apply Z.mod_1_r.
    unfold Binary64.floor_scaled. destruct (Z.leb_spec 0 e).
    + replace e with 0 by lia. change (2 ^ (- 0)) with 1.
      change (2 ^ 0) with 1. lia.
    + replace (- (- z * 2 ^ (- e))) with (z * 2 ^ (- e)) by lia.
      apply Z.div_mul. pose proof (pow2_pos (- e) ltac:(lia)). lia.
  - rewrite floor_div_pos_eq by lia.
    pose proof (ulp_exponent_lower z 1 ltac:(lia) ltac:(lia)) as Hlow.
    pose proof (round_mantissa_spec z 1 (Binary64.ulp_exponent z 1) ltac:(lia)
                  ltac:(lia)) as Hm.
    cbv zeta in Hm.
    set (e := Binary64.ulp_exponent z 1) in *.
    set (m := Binary64.round_mantissa z 1 e) in *.
    change (2 ^ 52) with 4503599627370496 in Hlow.
    change (2 ^ 53) with 9007199254740992 in Hz.
    destruct (Z.lt_ge_cases 0 e) as [He|He].
    { exfalso. rewrite (Z.max_r 0 e), (Z.max_l 0 (- e)) in Hlow by lia.
      assert (2 ^ 1 <= 2 ^ e) by (apply Z.pow_le_mono_r; lia).
      change (2 ^ 1) with 2 in *. change (2 ^ 0) with 1 in Hlow. lia. }
    rewrite (Z.max_l 0 e), (Z.max_r 0 (- e)) in Hm by lia.
    change (2 ^ 0) with 1 in Hm. rewrite !Z.mul_1_r, Z.div_1_r in Hm.
    destruct Hm as (_ & _ & Hexact). rewrite Hexact by apply Z.mod_1_r.
    unfold Binary64.floor_scaled. destruct (Z.leb_spec 0 e).
    + replace e with 0 by lia. change (2 ^ (- 0)) with 1.
      change (2 ^ 0) with 1. lia.
    + apply Z.div_mul. pose proof (pow2_pos (- e) ltac:(lia)). lia.
Qed.

(** ** The loop on doubles *)

Lemma binary64_loop_body_eq (v : vars) :
  Binary64.loop_body v =
  {| result := Js.to_string (Binary64.lookup v) ++ result v;
     i := Binary64.sub (Binary64.floor_div (i v) 26) 1 |}.
Proof. reflexivity. Qed.

(** On a safe integer that is not negative the next working value is
    the one of the integers. *)
Lemma binary64_next_safe (n : Z) :
  0 <= n < 2 ^ 53 -> Binary64.sub (Binary64.floor_div n 26) 1 = n / 26 - 1.
Proof.
  intros Hn. rewrite floor_div_26_safe by exact Hn.
  unfold Binary64.sub. apply round_exact.
  assert (0 <= n / 26) by (apply Z.div_pos; lia).
  assert (n / 26 <= n) by (apply Z.div_le_upper_bound; lia).
  change (2 ^ 53) with 9007199254740992 in *. lia.
Qed.

(** On every working value that is not negative the next one is at
    least -1 and less than half of it. *)
Lemma binary64_next_decreases (n : Z) :
  0 <= n ->
  -1 <= Binary64.sub (Binary64.floor_div n 26) 1
  /\ 2 * Binary64.sub (Binary64.floor_div n 26) 1 < n.
Proof.
  intros Hn. destruct (Z.eq_dec n 0) as [->|Hne]; [cbn; lia|].
  destruct (floor_div_pos_bounds n 26 ltac:(lia) ltac:(lia)) as [Hq0 Hq].
  set (q := Binary64.floor_div n 26) in *. unfold Binary64.sub.
  destruct (Z.lt_trichotomy (q - 1) 0) as [Hz|[Hz|Hz]].
  - replace (q - 1) with (-1) by lia. cbn. lia.
  - rewrite Hz. cbn. lia.
  - destruct (floor_div_pos_bounds (q - 1) 1 Hz ltac:(lia)) as [Hr0 Hr].
    fold (Binary64.round (q - 1)) in Hr0, Hr. lia.
Qed.

(** A negative working value stays negative. *)
Lemma binary64_next_negative (n : Z) :
  n < 0 -> Binary64.sub (Binary64.floor_div n 26) 1 < 0.
Proof.
  intros Hn. pose proof (floor_div_neg n 26 Hn ltac:(lia)) as Hq.
  unfold Binary64.sub, Binary64.round.
  pose proof (floor_div_neg (Binary64.floor_div n 26 - 1) 1 ltac:(lia)
                ltac:(lia)). lia.
Qed.

Lemma binary64_next_below_26 (n : Z) :
  n < 26 -> Binary64.sub (Binary64.floor_div n 26) 1 < 0.
Proof.
  intros Hn. destruct (Z.lt_ge_cases n 0) as [Hneg|Hpos].
  - now apply binary64_next_negative.
  - rewrite binary64_next_safe by (change (2 ^ 53) with 9007199254740992; lia).
    rewrite Z.div_small by lia. lia.
Qed.

Lemma binary64_loop_body_safe (v : vars) :
  0 <= i v < 2 ^ 53 -> Binary64.loop_body v = loop_body v.
Proof.
  intros Hv. rewrite binary64_loop_body_eq, loop_body_eq.
  now rewrite binary64_next_safe.
Qed.

(** On the safe integers that are not negative the loop on doubles is
    the loop on integers, turn by turn. *)
Lemma binary64_loop_safe (fuel : nat) :
  forall (acc : string) (n : Z),
    0 <= n < 2 ^ 53 ->
    do_while Binary64.loop_body loop_cond fuel {| result := acc; i := n |}
    = do_while loop_body loop_cond fuel {| result := acc; i := n |}.
Proof.
  induction fuel as [|fuel IH]; intros acc n Hn; [reflexivity|].
  rewrite !do_while_S, binary64_loop_body_safe by exact Hn.
  rewrite loop_cond_eq, loop_body_eq. cbn [i result].
  destruct (Z.leb_spec 0 (n / 26 - 1)) as [H|H]; [|reflexivity].
  rewrite IH; [reflexivity|].
  assert (n / 26 <= n) by (apply Z.div_le_upper_bound; lia). lia.
Qed.

Lemma binary64_loop_exits (fuel : nat) :
  forall (acc : string) (n : Z),
    n < 2 ^ Z.of_nat fuel ->
    exists r,
      do_while Binary64.loop_body loop_cond (S fuel) {| result := acc; i := n |}
      = Some r.
Proof.
  induction fuel as [|fuel IH]; intros acc n Hn;
    rewrite do_while_S, binary64_loop_body_eq, loop_cond_eq; cbn [i result].
  - destruct (Z.leb_spec 0 (Binary64.sub (Binary64.floor_div n 26) 1))
      as [H|H]; [|eauto].
    pose proof (binary64_next_below_26 n ltac:(cbn in Hn; lia)). lia.
  - destruct (Z.leb_spec 0 (Binary64.sub (Binary64.floor_div n 26) 1))
      as [H|H]; [|eauto].
    assert (0 <= n) as Hn0.
    { destruct (Z.lt_ge_cases n 0) as [Hneg|]; [|assumption].
      pose proof (binary64_next_negative n Hneg). lia. }
    destruct (binary64_next_decreases n Hn0) as [_ Hhalf].
    rewrite Nat2Z.inj_succ, Z.pow_succ_r in Hn by lia.
    edestruct IH as [[k v] E]; [|rewrite E; eauto]. lia.
Qed.

Lemma binary64_getQuerySymbol_loop_exits (index : Z) :
  exists r, Binary64.getQuerySymbol_loop (iterations_bound index) index = Some r.
Proof. apply binary64_loop_exits, index_below_bound. Qed.

(** ** The states the loop visits *)

Section DoWhileVisited.

Variable state : Type.
Variable body : state -> state.
Variable cond : state -> bool.

Lemma do_while_visited_S (fuel : nat) (s : state) :
  do_while_visited body cond (S fuel) s
  = s :: (if cond (body s) then do_while_visited body cond fuel (body s)
          else []).
Proof. reflexivity. Qed.

(** Once the loop has exited, more fuel visits nothing more. *)
Lemma do_while_visited_fuel_le (fuel : nat) :
  forall (fuel' : nat) (s : state) r,
    (fuel <= fuel')%nat ->
    do_while body cond fuel s = Some r ->
    do_while_visited body cond fuel' s = do_while_visited body cond fuel s.
Proof.
  induction fuel as [|fuel IH]; intros fuel' s r Hle H; [discriminate|].
  destruct fuel' as [|fuel']; [lia|].
  rewrite do_while_S in H. rewrite !do_while_visited_S.
  destruct (cond (body s)); [|reflexivity].
  destruct (do_while body cond fuel (body s)) as [r'|] eqn:E; [|discriminate].
  f_equal. apply (IH fuel' _ r'); [lia | exact E].
Qed.

(** The loop visits one state for each iteration, the first of them the
    state it starts from, and every later one passes the test. *)
Lemma do_while_visited_spec (fuel : nat) :
  forall (s : state) (n : nat) (s' : state),
    do_while body cond fuel s = Some (n, s') ->
    List.length (do_while_visited body cond fuel s) = n
    /\ exists rest,
         do_while_visited body cond fuel s = s :: rest
         /\ Forall (fun v => cond v = true) rest.
Proof.
  induction fuel as [|fuel IH]; intros s n s' H; [discriminate|].
  rewrite do_while_S in H. rewrite do_while_visited_S.
  destruct (cond (body s)) eqn:C.
  - destruct (do_while body cond fuel (body s)) as [[m t]|] eqn:E;
      [|discriminate].
    injection H as <- <-.
    destruct (IH _ _ _ E) as (Hlen & rest & Hv & Hrest).
    split; [cbn; now rewrite Hlen|].
    eexists. split; [reflexivity|]. rewrite Hv. now constructor.
  - injection H as <- <-. split; [reflexivity|].
    exists []. split; [reflexivity | constructor].
Qed.

End DoWhileVisited.

(** What the loop leaves in [result] is what its turns have read from
    [indexToChar], each prepended to what was there. *)
Lemma binary64_result_of_visited (fuel : nat) :
  forall (s : vars) (n : nat) (s' : vars),
    do_while Binary64.loop_body loop_cond fuel s = Some (n, s') ->
    result s'
    = fold_left (fun acc v => Js.to_string (Binary64.lookup v) ++ acc)
        (do_while_visited Binary64.loop_body loop_cond fuel s) (result s).
Proof.
  induction fuel as [|fuel IH]; intros s n s' H; [discriminate|].
  rewrite do_while_S in H. rewrite do_while_visited_S. cbn [fold_left].
  destruct (loop_cond (Binary64.loop_body s)) eqn:C.
  - destruct (do_while Binary64.loop_body loop_cond fuel (Binary64.loop_body s))
      as [[m t]|] eqn:E; [|discriminate].
    injection H as <- <-. now rewrite (IH _ _ _ E).
  - injection H as <- <-. reflexivity.
Qed.

(** Whatever fuel lets the loop on doubles exit, it exits with the
    value, the iterations and the visited states of
    [Binary64.getQuerySymbol]. *)
Lemma binary64_any_fuel (fuel : nat) (index : Z) (n : nat) (v : vars) :
  Binary64.getQuerySymbol_loop fuel index = Some (n, v) ->
  Binary64.getQuerySymbol index = result v
  /\ Binary64.getQuerySymbol_iterations index = n
  /\ Binary64.getQuerySymbol_visited index
     = do_while_visited Binary64.loop_body loop_cond fuel (loop_init index).
Proof.
  intros H. destruct (binary64_getQuerySymbol_loop_exits index) as [[m w] E].
  unfold Binary64.getQuerySymbol, Binary64.getQuerySymbol_fuel,
    Binary64.getQuerySymbol_iterations, Binary64.getQuerySymbol_visited.
  rewrite E. cbn [option_map snd].
  unfold Binary64.getQuerySymbol_loop in *.
  set (big := Nat.max fuel (iterations_bound index)).
  assert (fuel <= big)%nat as Hl by apply Nat.le_max_l.
  assert (iterations_bound index <= big)%nat as Hr by apply Nat.le_max_r.
  pose proof (do_while_fuel_le _ _ _ fuel big _ _ Hl H) as H'.
  pose proof (do_while_fuel_le _ _ _ (iterations_bound index) big _ _ Hr E)
    as E'.
  rewrite H' in E'. injection E' as <- <-.
  split; [reflexivity|]. split; [reflexivity|].
  rewrite <- (do_while_visited_fuel_le _ _ _ _ big _ _ Hr E).
  apply (do_while_visited_fuel_le _ _ _ _ big _ _ Hl H).
Qed.

(** On the safe integers that are not negative [Binary64.getQuerySymbol]
    is [getQuerySymbol]. *)
Lemma binary64_getQuerySymbol_safe (index : Z) :
  0 <= index < 2 ^ 53 ->
  Binary64.getQuerySymbol index = getQuerySymbol index
  /\ Binary64.getQuerySymbol_iterations index = getQuerySymbol_iterations index
  /\ forall fuel,
       Binary64.getQuerySymbol_fuel fuel index = getQuerySymbol_fuel fuel index.
Proof.
  intros Hindex.
  assert (forall fuel, Binary64.getQuerySymbol_loop fuel index
                       = getQuerySymbol_loop fuel index) as Hloop.
  { intros fuel. unfold Binary64.getQuerySymbol_loop, getQuerySymbol_loop.
    apply binary64_loop_safe, Hindex. }
  unfold Binary64.getQuerySymbol, getQuerySymbol,
    Binary64.getQuerySymbol_iterations, getQuerySymbol_iterations,
    Binary64.getQuerySymbol_fuel, getQuerySymbol_fuel.
  rewrite !Hloop. split; [reflexivity|]. split; [reflexivity|].
  intros fuel. now rewrite Hloop.
Qed.

(** ** Every lookup is in bounds *)

(** On working values that are not negative every turn prepends one
    lowercase letter. *)
Lemma fold_lookups_letters (visited : list vars) :
  forall acc : string,
    Forall (fun v => 0 <= i v) visited ->
    String.length
      (fold_left (fun acc v => Js.to_string (Binary64.lookup v) ++ acc)
         visited acc)
    = (List.length visited + String.length acc)%nat
    /\ (all_lowercase acc = true ->
        all_lowercase
          (fold_left (fun acc v => Js.to_string (Binary64.lookup v) ++ acc)
             visited acc)
        = true).
Proof.
  induction visited as [|v visited IH]; intros acc Hall; cbn [fold_left].
  - split; [reflexivity | trivial].
  - inversion Hall as [|? ? Hv Hrest]; subst.
    destruct (loop_body_prepends_letter v Hv) as (c & Hc & Hlook & _).
    rewrite (Hlook : Binary64.lookup v = _). cbn [Js.to_string append].
    destruct (IH (String c acc) Hrest) as [Hlen Hlow].
    split; [rewrite Hlen; cbn; lia|].
    intros Hacc. apply Hlow. cbn. now rewrite Hc, Hacc.
Qed.

(** C4: for every index that is not negative, every lookup the run of
    the loop makes in [indexToChar] is in bounds: each state the body
    runs on, the first of them the initial one, has a working value
    that is not negative, and reads one lowercase letter, never
    [undefined].  The symbol returned consists of exactly these
    letters, one for each turn, so it is a non-empty string of the
    letters a to z.  This holds of the run on doubles, whatever the
    magnitude of the index. *)
Theorem getQuerySymbol_lookups_in_bounds (n : Z) :
  0 <= n ->
  (exists rest, Binary64.getQuerySymbol_visited n = loop_init n :: rest)
  /\ (forall v, In v (Binary64.getQuerySymbol_visited n) ->
        0 <= i v
        /\ 0 <= Js.rem (i v) (Js.length indexToChar) < Js.length indexToChar
        /\ exists c, is_lowercase c = true
                     /\ Binary64.lookup v = Js.Str (String c ""))
  /\ Binary64.getQuerySymbol n
     = fold_left (fun acc v => Js.to_string (Binary64.lookup v) ++ acc)
         (Binary64.getQuerySymbol_visited n) ""
  /\ List.length (Binary64.getQuerySymbol_visited n)
     = Binary64.getQuerySymbol_iterations n
  /\ String.length (Binary64.getQuerySymbol n)
     = Binary64.getQuerySymbol_iterations n
  /\ Binary64.getQuerySymbol n <> ""
  /\ all_lowercase (Binary64.getQuerySymbol n) = true.
Proof.
  intros Hn.
  destruct (binary64_getQuerySymbol_loop_exits n) as [[k w] E].
  destruct (binary64_any_fuel _ _ _ _ E) as (Hres & Hit & Hvis).
  unfold Binary64.getQuerySymbol_loop in E.
  destruct (do_while_visited_spec _ _ _ _ _ _ _ E) as (Hlen & rest & Hv & Hrest).
  pose proof (binary64_result_of_visited _ _ _ _ E) as Hfold.
  pose proof (do_while_count _ _ _ _ _ _ _ E) as Hk.
  rewrite <- Hvis in Hlen, Hv, Hfold. cbn [loop_init result] in Hfold.
  assert (Forall (fun v => 0 <= i v) (Binary64.getQuerySymbol_visited n))
    as Hall.
  { rewrite Hv. constructor; [exact Hn|].
    eapply Forall_impl; [|exact Hrest].
    intros v Hc. cbv beta in Hc. unfold loop_cond in Hc. now apply Z.leb_le. }
  destruct (fold_lookups_letters _ "" Hall) as [Hlength Hlower].
  rewrite <- Hfold, <- Hres in Hlength, Hlower.
  rewrite Hit.
  split; [now exists rest|]. split.
  { intros v Hin. rewrite Forall_forall in Hall. specialize (Hall v Hin).
    split; [exact Hall|].
    destruct (loop_body_prepends_letter v Hall) as (c & Hc & Hlook & _).
    split; [|now exists c].
    rewrite indexToChar_length. unfold Js.rem.
    rewrite Z.rem_mod_nonneg by lia. apply Z.mod_pos_bound. lia. }
  split; [rewrite Hres; exact Hfold|]. split; [exact Hlen|].
  cbn [String.length] in Hlength.
  split; [lia|]. split; [|now apply Hlower].
  intros Hempty. rewrite Hempty in Hlength. cbn in Hlength. lia.
Qed.

Lemma getQuerySymbol_lookups_in_bounds_witness :
  0 <= 2 ^ 55
  /\ Binary64.getQuerySymbol (2 ^ 55) = "iueshzicgssy"
  /\ String.length (Binary64.getQuerySymbol (2 ^ 55))
     = Binary64.getQuerySymbol_iterations (2 ^ 55)
  /\ Binary64.getQuerySymbol (2 ^ 55) <> ""
  /\ all_lowercase (Binary64.getQuerySymbol (2 ^ 55)) = true.
Proof.
  assert (0 <= 2 ^ 55) as H by (vm_compute; discriminate).
  split; [exact H|]. split; [vm_compute; reflexivity|].
  destruct (getQuerySymbol_lookups_in_bounds (2 ^ 55) H)
    as (_ & _ & _ & _ & Hlen & Hne & Hlow).
  split; [exact Hlen|]. split; [exact Hne | exact Hlow].
Defined.

(** ** The claims on the safe integers *)

(** C1, on the safe integers: for every index from 0 up to [2^53],
    the latter excluded, [getQuerySymbol] as the engine computes it
    returns the string of the reference algorithm of the specification
    (prepend the letter ['a' + (i mod 26)], set [i = floor (i / 26) - 1],
    repeat while [i >= 0], the body run at least once).  The reference
    run returns that string within the iterations allowed, and the two
    agree at every bound on the iterations as well. *)
Theorem getQuerySymbol_refines_reference_safe (index : Z) :
  0 <= index < 2 ^ 53 ->
  Binary64.getQuerySymbol index = Reference.generateLabel index
  /\ Reference.generateLabel_fuel (iterations_bound index) index
     = Some (Binary64.getQuerySymbol index)
  /\ forall fuel,
       Binary64.getQuerySymbol_fuel fuel index
       = Reference.generateLabel_fuel fuel index.
Proof.
  intros Hindex.
  destruct (binary64_getQuerySymbol_safe index Hindex) as (Hsafe & _ & Hsafe').
  assert (forall fuel, getQuerySymbol_fuel fuel index
                       = Reference.generateLabel_fuel fuel index) as Hfuel.
  { intros fuel.
    unfold getQuerySymbol_fuel, Reference.generateLabel_fuel, getQuerySymbol_loop,
      loop_init.
    rewrite reference_simulates by lia.
    destruct (do_while loop_body loop_cond fuel _) as [[k v]|]; reflexivity. }
  rewrite Hsafe. split; [|split].
  - unfold getQuerySymbol, Reference.generateLabel. now rewrite Hfuel.
  - rewrite <- Hfuel. unfold getQuerySymbol, getQuerySymbol_fuel.
    destruct (getQuerySymbol_loop_exits index) as [r ->]. reflexivity.
  - intros fuel. now rewrite Hsafe', Hfuel.
Qed.

Lemma getQuerySymbol_refines_reference_safe_witness :
  0 <= 18277 < 2 ^ 53
  /\ Binary64.getQuerySymbol 18277 = Reference.generateLabel 18277
  /\ Reference.generateLabel 18277 = "zzz".
Proof.
  assert (0 <= 18277 < 2 ^ 53) as H
    by (vm_compute; split; [discriminate | reflexivity]).
  split; [exact H|]. split; [|vm_compute; reflexivity].
  apply (getQuerySymbol_refines_reference_safe 18277 H).
Defined.

(** Beyond the safe integers the two differ: on the double [2^55] the
    quotient [2^55 / 26] is rounded up to an integer before the floor,
    and the engine's symbol is not the reference algorithm's. *)
Lemma getQuerySymbol_differs_from_reference :
  0 <= 2 ^ 55
  /\ Binary64.round (2 ^ 55) = 2 ^ 55
  /\ Binary64.floor_div (2 ^ 55) 26 = 2 ^ 55 / 26 + 1
  /\ Binary64.getQuerySymbol (2 ^ 55) = "iueshzicgssy"
  /\ Reference.generateLabel (2 ^ 55) = "iueshzicgsry".
Proof. repeat split; vm_compute; congruence. Qed.

(** C9, on the safe integers: a digit [d] from 0 to 25 is named by the
    single letter ['a' + d], and an index [26 * (n + 1) + d] below
    [2^53] is named by the name of [n] followed by the letter
    ['a' + d]. *)
Theorem getQuerySymbol_recurrence_safe (n d : Z) :
  0 <= d <= 25 ->
  Binary64.getQuerySymbol d = String (letter d) ""
  /\ (0 <= n -> 26 * (n + 1) + d < 2 ^ 53 ->
      Binary64.getQuerySymbol (26 * (n + 1) + d)
      = Binary64.getQuerySymbol n ++ String (letter d) "").
Proof.
  intros Hd. change (2 ^ 53) with 9007199254740992. split.
  - destruct (binary64_getQuerySymbol_safe d) as [-> _];
      [change (2 ^ 53) with 9007199254740992; lia|].
    apply getQuerySymbol_digit. lia.
  - intros Hn Hsafe.
    destruct (binary64_getQuerySymbol_safe (26 * (n + 1) + d)) as [-> _];
      [change (2 ^ 53) with 9007199254740992; lia|].
    destruct (binary64_getQuerySymbol_safe n) as [-> _];
      [change (2 ^ 53) with 9007199254740992; lia|].
    apply getQuerySymbol_snoc; lia.
Qed.

Lemma getQuerySymbol_recurrence_safe_witness :
  0 <= 3 <= 25 /\ 0 <= 27 /\ 26 * (27 + 1) + 3 < 2 ^ 53
  /\ Binary64.getQuerySymbol 3 = "d"
  /\ Binary64.getQuerySymbol (26 * (27 + 1) + 3)
     = Binary64.getQuerySymbol 27 ++ "d".
Proof.
  split; [lia|]. split; [lia|]. split; [reflexivity|].
  destruct (getQuerySymbol_recurrence_safe 27 3 ltac:(lia)) as [H1 H2].
  split; [exact H1 | apply H2; [lia | reflexivity]].
Defined.

(** Beyond the safe integers the recurrence breaks: [n = 2^50 - 1],
    [d = 24] and [26 * (n + 1) + d] are doubles, and the symbol of the
    last is not the symbol of [n] followed by y. *)
Lemma getQuerySymbol_recurrence_breaks :
  0 <= 24 <= 25 /\ 0 <= 2 ^ 50 - 1
  /\ Binary64.round (26 * (2 ^ 50 - 1 + 1) + 24) = 26 * (2 ^ 50 - 1 + 1) + 24
  /\ letter 24 = "y"%char
  /\ Binary64.getQuerySymbol (26 * (2 ^ 50 - 1 + 1) + 24) = "gyinbkqdgxey"
  /\ Binary64.getQuerySymbol (2 ^ 50 - 1) ++ String (letter 24) ""
     = "gyinbkqdgxdy".
Proof. repeat split; vm_compute; congruence. Qed.

Lemma threshold_11_safe : threshold 11 < 2 ^ 53 < threshold 12.
Proof. vm_compute. split; reflexivity. Qed.

(** A label of at most eleven letters stands for a safe integer. *)
Lemma symbol_index_short (s : string) :
  all_lowercase s = true -> (String.length s <= 11)%nat ->
  symbol_index s < 2 ^ 53.
Proof.
  intros Hs Hlen. pose proof (symbol_index_range s Hs) as [_ Hr].
  pose proof (threshold_le _ _ Hlen). pose proof threshold_11_safe. lia.
Qed.







(** X2: on the safe integers the body of the loop runs once for each
    letter of the symbol: [k + 1] times on the indices from
    [threshold k] up to [threshold (k + 1)], which is at most
    logarithmic in the index. *)
Theorem getQuerySymbol_iterations_safe (index : Z) :
  0 <= index < 2 ^ 53 ->
  Binary64.getQuerySymbol_iterations index
  = String.length (Binary64.getQuerySymbol index)
  /\ (forall k : nat,
        threshold k <= index < threshold (S k) ->
        Binary64.getQuerySymbol_iterations index = S k)
  /\ 26 ^ Z.of_nat (Binary64.getQuerySymbol_iterations index - 1) <= index + 1.
Proof.
  intros Hindex.
  destruct (binary64_getQuerySymbol_safe index Hindex) as (-> & -> & _).
  rewrite <- getQuerySymbol_length_iterations by lia.
  destruct (getQuerySymbol_length_interval index ltac:(lia)) as (j & -> & Hj).
  split; [reflexivity|]. split.
  - intros k Hk. f_equal. now apply (threshold_interval_unique j k index).
  - replace (S j - 1)%nat with j by lia.
    pose proof (pow26_le_threshold j). lia.
Qed.

Lemma getQuerySymbol_iterations_safe_witness :
  0 <= 18277 < 2 ^ 53
  /\ threshold 2 <= 18277 < threshold 3
  /\ Binary64.getQuerySymbol_iterations 18277 = 3%nat
  /\ String.length (Binary64.getQuerySymbol 18277) = 3%nat.
Proof.
  assert (0 <= 18277 < 2 ^ 53) as H
    by (vm_compute; split; [discriminate | reflexivity]).
  split; [exact H|].
  split; [vm_compute; split; [discriminate | reflexivity]|].
  destruct (getQuerySymbol_iterations_safe 18277 H) as (Hlen & Hk & _).
  assert (Binary64.getQuerySymbol_iterations 18277 = 3%nat) as E.
  { apply Hk. vm_compute. split; [discriminate | reflexivity]. }
  split; [exact E | now rewrite <- Hlen].
Defined.

(** ** Negative indices, on doubles *)

(** An index below 26, negative ones included, takes one iteration on
    doubles as well, and returns what [getQuerySymbol] returns. *)
Lemma binary64_below_26 (index : Z) :
  index < 26 ->
  Binary64.getQuerySymbol_loop 1 index
  = Some (1%nat, Binary64.loop_body (loop_init index))
  /\ Binary64.getQuerySymbol index = getQuerySymbol index
  /\ Binary64.getQuerySymbol_iterations index = 1%nat.
Proof.
  intros H.
  assert (Binary64.getQuerySymbol_loop 1 index
          = Some (1%nat, Binary64.loop_body (loop_init index))) as E.
  { unfold Binary64.getQuerySymbol_loop.
    rewrite do_while_S, loop_cond_eq, binary64_loop_body_eq. cbn [i loop_init].
    pose proof (binary64_next_below_26 index H) as Hneg.
    destruct (Z.leb_spec 0 (Binary64.sub (Binary64.floor_div index 26) 1));
      [lia | reflexivity]. }
  split; [exact E|].
  destruct (binary64_any_fuel _ _ _ _ E) as (-> & -> & _).
  split; [|reflexivity].
  destruct (getQuerySymbol_below_26 index H) as [-> _].
  rewrite binary64_loop_body_eq. cbn. now rewrite append_empty_r.
Qed.

(** On a negative index the function returns a well-formed label:
    on [-1] the string "undefined", which is the symbol of the index
    4499111678181, and on [-26] the string "a", the symbol of 0. *)
Lemma getQuerySymbol_negative_is_label :
  (-1 < 0 /\ 0 <= 4499111678181 < 2 ^ 53)
  /\ Binary64.getQuerySymbol (-1) = "undefined"
  /\ is_label (Binary64.getQuerySymbol (-1))
  /\ Binary64.getQuerySymbol 4499111678181 = Binary64.getQuerySymbol (-1)
  /\ Binary64.getQuerySymbol (-26) = "a"
  /\ Binary64.getQuerySymbol 0 = Binary64.getQuerySymbol (-26).
Proof.
  split; [vm_compute; repeat split; congruence|].
  split; [vm_compute; reflexivity|].
  split; [split; [vm_compute; discriminate | vm_compute; reflexivity]|].
  repeat split; vm_compute; reflexivity.
Qed.

(** C10, as the source has it: for every negative index
    [getQuerySymbol] terminates after exactly one turn of the loop,
    the working value [floor (index / 26) - 1] being negative, and a
    string is returned; the call neither loops nor throws.  When the
    remainder [index % 26] is negative the lookup is out of bounds
    and the string is "undefined"; when it is zero the string is "a".
    Either way the string returned is a well-formed label, a non-empty
    string of lowercase letters, and the symbol of an index that is
    not negative. *)
Theorem getQuerySymbol_negative_returns_label (index : Z) :
  index < 0 ->
  i (Binary64.loop_body (loop_init index)) < 0
  /\ (forall fuel, (1 <= fuel)%nat ->
        Binary64.getQuerySymbol_loop fuel index
        = Some (1%nat, Binary64.loop_body (loop_init index)))
  /\ Binary64.getQuerySymbol_iterations index = 1%nat
  /\ getQuerySymbol_call index = Js.Return (Binary64.getQuerySymbol index)
  /\ Binary64.getQuerySymbol index
     = Js.to_string (Binary64.lookup (loop_init index))
  /\ (Js.rem index (Js.length indexToChar) < 0 ->
      Binary64.lookup (loop_init index) = Js.Undefined
      /\ Binary64.getQuerySymbol index = "undefined")
  /\ (Js.rem index (Js.length indexToChar) = 0 ->
      Binary64.getQuerySymbol index = "a")
  /\ is_label (Binary64.getQuerySymbol index)
  /\ exists n, 0 <= n < 2 ^ 53
               /\ Binary64.getQuerySymbol n = Binary64.getQuerySymbol index.
Proof.
  intros Hindex.
  destruct (binary64_below_26 index ltac:(lia)) as (Hloop & Hsame & Hit).
  destruct (getQuerySymbol_below_26 index ltac:(lia)) as [Hval _].
  split.
  { rewrite binary64_loop_body_eq. cbn [i loop_init].
    now apply binary64_next_negative. }
  split.
  { intros fuel Hfuel. unfold Binary64.getQuerySymbol_loop in *.
    apply (do_while_fuel_le _ _ _ 1%nat); [exact Hfuel | exact Hloop]. }
  split; [exact Hit|].
  split; [unfold getQuerySymbol_call; now rewrite Hsame|].
  rewrite Hsame. split; [exact Hval|].
  rewrite indexToChar_length.
  split; [apply (getQuerySymbol_negative_remainder index Hindex)|].
  split; [apply (getQuerySymbol_negative_multiple index Hindex)|].
  pose proof (Z.rem_bound_pos_neg index 26 ltac:(lia) ltac:(lia)) as Hrem.
  destruct (Z.eq_dec (Js.rem index 26) 0) as [E|E].
  - rewrite (getQuerySymbol_negative_multiple index Hindex E).
    split; [split; [discriminate | reflexivity]|].
    exists 0. split; [vm_compute; split; [discriminate | reflexivity]|].
    vm_compute. reflexivity.
  - destruct (getQuerySymbol_negative_remainder index Hindex) as [_ ->];
      [unfold Js.rem in *; lia|].
    split; [exact undefined_is_label|].
    exists (symbol_index "undefined").
    split; [vm_compute; split; [discriminate | reflexivity]|].
    vm_compute. reflexivity.
Qed.

Lemma getQuerySymbol_negative_returns_label_witness :
  -27 < 0
  /\ Binary64.getQuerySymbol_loop 3 (-27)
     = Some (1%nat, Binary64.loop_body (loop_init (-27)))
  /\ Binary64.getQuerySymbol_iterations (-27) = 1%nat
  /\ is_label (Binary64.getQuerySymbol (-27)).
Proof.
  split; [lia|].
  destruct (getQuerySymbol_negative_returns_label (-27) ltac:(lia))
    as (_ & Hloop & Hn & _ & _ & _ & _ & Hlabel & _).
  split; [apply Hloop; lia|]. split; [exact Hn | exact Hlabel].
Defined.

(** ** Doubles against integers *)

(** X11: on the safe integers that are not negative the rounding of
    the quotient and of the difference changes nothing.  The loop as
    the engine computes it and the loop on the integers agree at every
    bound on the iterations, so they return the same symbol after the
    same number of turns. *)
Theorem getQuerySymbol_exact_on_safe_integers (index : Z) (fuel : nat) :
  0 <= index < 2 ^ 53 ->
  Binary64.getQuerySymbol_loop fuel index = getQuerySymbol_loop fuel index
  /\ Binary64.getQuerySymbol index = getQuerySymbol index
  /\ Binary64.getQuerySymbol_iterations index = getQuerySymbol_iterations index
  /\ (forall n, 0 <= n < 2 ^ 53 ->
        Binary64.floor_div n (Js.length indexToChar)
        = Js.floor_div n (Js.length indexToChar)
        /\ Binary64.sub (Binary64.floor_div n (Js.length indexToChar)) 1
           = Js.floor_div n (Js.length indexToChar) - 1).
Proof.
  intros Hindex. split.
  { unfold Binary64.getQuerySymbol_loop, getQuerySymbol_loop.
    apply binary64_loop_safe, Hindex. }
  destruct (binary64_getQuerySymbol_safe index Hindex) as (Hs & Hn & _).
  split; [exact Hs|]. split; [exact Hn|].
  intros n Hn'. rewrite indexToChar_length. unfold Js.floor_div.
  split; [now apply floor_div_26_safe | now apply binary64_next_safe].
Qed.

Lemma getQuerySymbol_exact_on_safe_integers_witness :
  0 <= 2 ^ 53 - 1 < 2 ^ 53
  /\ Binary64.getQuerySymbol_loop 12 (2 ^ 53 - 1)
     = getQuerySymbol_loop 12 (2 ^ 53 - 1)
  /\ Binary64.getQuerySymbol (2 ^ 53 - 1) = getQuerySymbol (2 ^ 53 - 1).
Proof.
  assert (0 <= 2 ^ 53 - 1 < 2 ^ 53) as H
    by (vm_compute; split; [discriminate | reflexivity]).
  split; [exact H|].
  destruct (getQuerySymbol_exact_on_safe_integers (2 ^ 53 - 1) 12 H)
    as (Hloop & Hs & _).
  split; [exact Hloop | exact Hs].
Defined.

(** X12: as the engine computes it the loop terminates on every
    integer, whatever its sign and magnitude.  A turn on a working
    value that is not negative leaves one that is at least -1 and less
    than half of it, a turn on a negative one leaves a negative one,
    and the loop exits on a negative value after at most
    [floor (log2 index) + 2] turns. *)
Theorem getQuerySymbol_terminates_on_doubles (index : Z) :
  (forall v : vars,
     (0 <= i v ->
      -1 <= i (Binary64.loop_body v) /\ 2 * i (Binary64.loop_body v) < i v)
     /\ (i v < 0 -> i (Binary64.loop_body v) < 0))
  /\ exists (n : nat) (v : vars),
       (1 <= n <= iterations_bound index)%nat
       /\ iterations_bound index = S (S (Z.to_nat (Z.log2 index)))
       /\ i v < 0
       /\ result v = Binary64.getQuerySymbol index
       /\ forall fuel, (n <= fuel)%nat ->
            Binary64.getQuerySymbol_loop fuel index = Some (n, v).
Proof.
  split.
  { intros v. rewrite binary64_loop_body_eq. cbn [i]. split.
    - apply binary64_next_decreases.
    - apply binary64_next_negative. }
  destruct (binary64_getQuerySymbol_loop_exits index) as [[n v] E].
  destruct (binary64_any_fuel _ _ _ _ E) as (Hres & _ & _).
  unfold Binary64.getQuerySymbol_loop in *.
  exists n, v. split; [exact (do_while_count _ _ _ _ _ _ _ E)|].
  split; [reflexivity|].
  pose proof (do_while_exit _ _ _ _ _ _ _ E) as Hexit.
  rewrite loop_cond_eq in Hexit. apply Z.leb_gt in Hexit.
  split; [exact Hexit|]. split; [now symmetry|].
  intros fuel Hfuel. apply (do_while_fuel_le _ _ _ n); [exact Hfuel|].
  eapply do_while_exact, E.
Qed.
